(** * dnit: the task runner of [dnit.ts], embedded in Rocq

    The development follows the source file top-down: the data of the
    manifest, tracked files and their probes, tasks and the process-wide
    registries, the body of [Task.exec] cut at its suspension points, the
    entry point [exec], and then the properties. *)

From stdpp Require Import gmap strings list fin_maps.

Set Warnings "-clear-no-such-hyp".


(** ** Data of the manifest ([adl-gen/dnt/manifest.ts]) *)

(** [A.TrackedFileData]: the hash and the timestamp recorded for one file. *)
Record TrackedFileData := mkData {
  hash : string;
  timestamp : string
}.

Global Instance TrackedFileData_eq_dec : EqDecision TrackedFileData.
Proof. solve_decision. Defined.

(** Modelled from the spec: the class [TaskManifest] of [manifest.ts] is not
    part of the sources at hand. Section 4.2 asks of it one cached snapshot
    per path, read with [get] and written with [set]. *)
Abbreviation TaskManifest := (gmap string TrackedFileData).

Definition getFileData_tm (tm : TaskManifest) (p : string) : option TrackedFileData :=
  tm !! p.

Definition setFileData_tm (tm : TaskManifest) (p : string) (d : TrackedFileData) : TaskManifest :=
  <[p := d]> tm.

(** Modelled from the spec: [Manifest.tasks] of [manifest.ts], a store from
    task name to the task's record, with [getOrInsert] (section 4.2,
    [getOrCreate]): the record already there, or the given one after
    inserting it. *)
Abbreviation Manifest := (gmap string TaskManifest).

Definition getOrInsert (m : Manifest) (name : string) (fresh : TaskManifest) : Manifest :=
  match m !! name with
  | Some _ => m
  | None => <[name := fresh]> m
  end.

(** ** The file system and what the program can be seen doing *)

(** One directory entry. [mtime] is [None] where the platform gives no
    modification time ([stat.mtime] is null); otherwise it holds what
    [toISOString] prints. *)
Record FileEntry := mkEntry {
  mtime : option string;
  content : string
}.

Abbreviation FS := (gmap string FileEntry).

(** Calls that leave the program, in the order they are made. Tasks and
    tracked files are objects; they are named by their identity. *)
Inductive Event :=
| EvInfo (msg : string)              (* log.info *)
| EvError (msg : string)             (* log.error *)
| EvLstat (p : string)               (* Deno.lstat(p) *)
| EvExists (p : string)              (* fs.exists(p) *)
| EvGethash (f : nat) (p : string)   (* this.gethash(p) of file object f *)
| EvUptodate (t : nat)               (* this.uptodate() of task t *)
| EvActionCall (t : nat)             (* this.action() of task t is called *)
| EvActionReturn (t : nat)           (* ... and its promise resolves *)
| EvTable (rows : list (string * string))  (* console.log(textTable(..)) *)
| EvLoad                             (* manifest.load() *)
| EvSave.                            (* manifest.save() *)

Global Instance Event_eq_dec : EqDecision Event.
Proof. solve_decision. Defined.

(** A probe reads the file system and makes calls; it does not write.
    The file system is fixed for the length of one probe sequence. *)
Definition IO (A : Type) : Type := FS → A * list Event.

Global Instance IO_ret : MRet IO := λ A a _, (a, []).
Global Instance IO_bind : MBind IO := λ A B k m fs,
  let '(a, e1) := m fs in
  let '(b, e2) := k a fs in
  (b, e1 ++ e2).

Definition emit (e : Event) : IO unit := λ _, (tt, [e]).
Definition ask : IO FS := λ fs, (fs, []).

(** JavaScript's [s || d] on strings: the empty string is falsy. *)
Definition or_else (s d : string) : string :=
  if decide (s = "") then d else s.

(** ** TrackedFile *)

Record TrackedFile := mkFile {
  fid : nat;                          (* object identity *)
  path : string;
  gethash : string → FS → string
}.

Section Defaults.
(** [createHash("sha1")] applied to a file's text, and
    [path.posix.resolve], both from Deno's standard library. *)
Variable sha1 : string → string.
Variable resolve : string → string.

(** [filehash]: reads the file and digests it. [readFileStr] raises on a
    path that is absent; [getHash] calls [gethash] only after [exists],
    so the digest of no text stands in there. *)
Definition filehash (filename : string) (fs : FS) : string :=
  sha1 (from_option content "" (fs !! filename)).

Record FileParams := mkFileParams {
  fp_path : string;
  fp_gethash : option (string → FS → string)
}.

(** [file(fileParams)], that is [new TrackedFile(fileParams)]; [id] is
    the identity of the new object. *)
Definition file (id : nat) (fileParams : FileParams) : TrackedFile :=
  {| fid := id;
     path := resolve (fp_path fileParams);
     gethash := default filehash (fp_gethash fileParams) |}.
End Defaults.

Module TrackedFile.

(** [getTimestamp]: [lstat], then [mtime?.toISOString() || ""]; a
    missing path gives [""] through the [NotFound] handler. *)
Definition getTimestamp (f : TrackedFile) : IO string :=
  _ ← emit (EvLstat (path f));
  fs ← ask;
  match fs !! path f with
  | Some e => mret (or_else (default "" (mtime e)) "")
  | None => mret ""
  end.

Definition exists_ (f : TrackedFile) : IO bool :=
  _ ← emit (EvInfo ("checking exists " +:+ path f));
  _ ← emit (EvExists (path f));
  fs ← ask;
  mret (bool_decide (is_Some (fs !! path f))).

Definition getHash (f : TrackedFile) : IO string :=
  ex ← exists_ f;
  if negb (ex : bool) then mret ""
  else
    _ ← emit (EvInfo ("checking hash on " +:+ path f));
    _ ← emit (EvGethash (fid f) (path f));
    fs ← ask;
    mret (gethash f (path f) fs).

Definition isUpToDate (f : TrackedFile) (tData : option TrackedFileData) : IO bool :=
  match tData with
  | None => mret false
  | Some d =>
      mt ← getTimestamp f;
      if decide (mt = timestamp d) then mret true
      else
        h ← getHash f;
        mret (bool_decide (h = hash d))
  end.

Definition getFileData (f : TrackedFile) : IO TrackedFileData :=
  h ← getHash f;
  ts ← getTimestamp f;
  mret {| hash := h; timestamp := ts |}.

Definition getFileDataOrCached (f : TrackedFile) (tData : option TrackedFileData)
  : IO (TrackedFileData * bool) :=
  match tData with
  | Some d =>
      ok ← isUpToDate f (Some d);
      if (ok : bool) then mret (d, true)
      else d' ← getFileData f; mret (d', false)
  | None =>
      d' ← getFileData f; mret (d', false)
  end.

End TrackedFile.

(** ** Task *)

(** A task object. [task_deps] and [taskManifest] are written after
    construction ([exec], [setup]); the other fields are not. Task
    dependencies are references to task objects. A [Set] iterates in
    insertion order, so it is kept as a list without repetition.
    [taskManifest] is [None] for the null handle, otherwise the key under
    which the task's record lives in the manifest. An action is taken by
    what it has done to the file system when its promise resolves. *)
Record Task := mkTask {
  name : string;
  description : option string;
  action : FS → FS;
  task_deps : list nat;
  file_deps : list TrackedFile;
  targets : list TrackedFile;
  taskManifest : option string;
  uptodate : FS → bool
}.

Record TaskParams := mkTaskParams {
  p_name : string;
  p_description : option string;
  p_action : FS → FS;
  p_task_deps : option (list nat);
  p_file_deps : option (list TrackedFile);
  p_deps : option (list (nat + TrackedFile));
  p_targets : option (list TrackedFile);
  p_uptodate : option (FS → bool)
}.

(** [runAlways]: an up-to-date test that always says no. *)
Definition runAlways : FS → bool := λ _, false.

(** [Set.add] on a set of task objects, and [new Set(array)]. *)
Definition set_add (x : nat) (s : list nat) : list nat :=
  if decide (x ∈ s) then s else s ++ [x].

Definition set_of (l : list nat) : list nat := foldl (λ s x, set_add x s) [] l.

(** The same for tracked files, which are told apart as objects. *)
Definition fset_add (f : TrackedFile) (s : list TrackedFile) : list TrackedFile :=
  if decide (fid f ∈ fid <$> s) then s else s ++ [f].

Definition fset_of (l : list TrackedFile) : list TrackedFile :=
  foldl (λ s f, fset_add f s) [] l.

Definition getTaskDeps (task_deps : option (list nat)) (deps : option (list (nat + TrackedFile)))
  : list nat :=
  default [] task_deps ++ omap (λ d, match d with inl t => Some t | inr _ => None end) (default [] deps).

Definition getTrackedFiles (file_deps : option (list TrackedFile))
    (deps : option (list (nat + TrackedFile))) : list TrackedFile :=
  default [] file_deps ++ omap (λ d, match d with inl _ => None | inr f => Some f end) (default [] deps).

(** [new Task(taskParams)] *)
Definition new_Task (taskParams : TaskParams) : Task :=
  {| name := p_name taskParams;
     action := p_action taskParams;
     description := p_description taskParams;
     task_deps := set_of (getTaskDeps (p_task_deps taskParams) (p_deps taskParams));
     file_deps := fset_of (getTrackedFiles (p_file_deps taskParams) (p_deps taskParams));
     targets := fset_of (default [] (p_targets taskParams));
     taskManifest := None;
     uptodate := default runAlways (p_uptodate taskParams) |}.

(** ** The state of one process *)

(** Where a call of [Task.exec] that got past its two guards stands:
    running, before its first suspension; suspended at
    [await this.execDependencies()], that is at the [Promise.all] over
    [promisesInProgress]; suspended at [await this.action()]; or
    returned. *)
Inductive Phase :=
| Running
| AwaitDeps
| AwaitAction
| Returned.

Global Instance Phase_eq_dec : EqDecision Phase.
Proof. solve_decision. Defined.

(** A call of [Task.exec] that got past the guards: the task object it
    is on, [this], and where it stands. *)
Record Call := mkCall { callee : nat; phase : Phase }.

Global Instance Call_eq_dec : EqDecision Call.
Proof. solve_decision. Defined.

(** What a call [t.exec()] gives back: the promise of the call [a] that
    got past the guards, or the promise, settled from the start, of a call
    that returned at its guards. Calls are numbered as they are made; one
    task object can have several. *)
Inductive Promise :=
| Settled
| OfCall (a : nat).

Global Instance Promise_eq_dec : EqDecision Promise.
Proof. solve_decision. Defined.

(** Where the entry point [exec] stands. *)
Inductive MainPhase :=
| NotCalled
| Listed                     (* returned after the [list] command *)
| AwaitTask (p : Promise)    (* at [await task.exec()] *)
| Saved.                     (* [manifest.save()] done, returned *)

Global Instance MainPhase_eq_dec : EqDecision MainPhase.
Proof. solve_decision. Defined.

Record State := mkState {
  heap : gmap nat Task;                  (* the task objects *)
  manifest : Manifest;
  taskRegister : list (string * nat);    (* a Map, in insertion order *)
  targetRegister : gmap string nat;
  doneTasks : gset nat;
  inprogressTasks : gset nat;
  fsys : FS;
  calls : gmap nat Call;                 (* the calls of [Task.exec] past the guards *)
  promises : gmap nat (list Promise);    (* [promisesInProgress] of each call *)
  detached : list (nat * TrackedFile);   (* promises that nothing awaits *)
  main : MainPhase;
  trace : list Event
}.

Definition init (fs : FS) : State :=
  {| heap := ∅; manifest := ∅; taskRegister := []; targetRegister := ∅;
     doneTasks := ∅; inprogressTasks := ∅; fsys := fs; calls := ∅;
     promises := ∅;
     detached := []; main := NotCalled; trace := [] |}.

Definition set_heap (f : gmap nat Task → gmap nat Task) (σ : State) : State :=
  mkState (f (heap σ)) (manifest σ) (taskRegister σ) (targetRegister σ) (doneTasks σ)
    (inprogressTasks σ) (fsys σ) (calls σ) (promises σ) (detached σ) (main σ) (trace σ).
Definition set_manifest (f : Manifest → Manifest) (σ : State) : State :=
  mkState (heap σ) (f (manifest σ)) (taskRegister σ) (targetRegister σ) (doneTasks σ)
    (inprogressTasks σ) (fsys σ) (calls σ) (promises σ) (detached σ) (main σ) (trace σ).
Definition set_taskRegister (f : list (string * nat) → list (string * nat)) (σ : State) : State :=
  mkState (heap σ) (manifest σ) (f (taskRegister σ)) (targetRegister σ) (doneTasks σ)
    (inprogressTasks σ) (fsys σ) (calls σ) (promises σ) (detached σ) (main σ) (trace σ).
Definition set_targetRegister (f : gmap string nat → gmap string nat) (σ : State) : State :=
  mkState (heap σ) (manifest σ) (taskRegister σ) (f (targetRegister σ)) (doneTasks σ)
    (inprogressTasks σ) (fsys σ) (calls σ) (promises σ) (detached σ) (main σ) (trace σ).
Definition set_doneTasks (f : gset nat → gset nat) (σ : State) : State :=
  mkState (heap σ) (manifest σ) (taskRegister σ) (targetRegister σ) (f (doneTasks σ))
    (inprogressTasks σ) (fsys σ) (calls σ) (promises σ) (detached σ) (main σ) (trace σ).
Definition set_inprogressTasks (f : gset nat → gset nat) (σ : State) : State :=
  mkState (heap σ) (manifest σ) (taskRegister σ) (targetRegister σ) (doneTasks σ)
    (f (inprogressTasks σ)) (fsys σ) (calls σ) (promises σ) (detached σ) (main σ) (trace σ).
Definition set_fsys (f : FS → FS) (σ : State) : State :=
  mkState (heap σ) (manifest σ) (taskRegister σ) (targetRegister σ) (doneTasks σ)
    (inprogressTasks σ) (f (fsys σ)) (calls σ) (promises σ) (detached σ) (main σ) (trace σ).
Definition set_calls (f : gmap nat Call → gmap nat Call) (σ : State) : State :=
  mkState (heap σ) (manifest σ) (taskRegister σ) (targetRegister σ) (doneTasks σ)
    (inprogressTasks σ) (fsys σ) (f (calls σ)) (promises σ) (detached σ) (main σ) (trace σ).
Definition set_promises (f : gmap nat (list Promise) → gmap nat (list Promise)) (σ : State) : State :=
  mkState (heap σ) (manifest σ) (taskRegister σ) (targetRegister σ) (doneTasks σ)
    (inprogressTasks σ) (fsys σ) (calls σ) (f (promises σ)) (detached σ) (main σ) (trace σ).
Definition set_detached (f : list (nat * TrackedFile) → list (nat * TrackedFile)) (σ : State) : State :=
  mkState (heap σ) (manifest σ) (taskRegister σ) (targetRegister σ) (doneTasks σ)
    (inprogressTasks σ) (fsys σ) (calls σ) (promises σ) (f (detached σ)) (main σ) (trace σ).
Definition set_main (m : MainPhase) (σ : State) : State :=
  mkState (heap σ) (manifest σ) (taskRegister σ) (targetRegister σ) (doneTasks σ)
    (inprogressTasks σ) (fsys σ) (calls σ) (promises σ) (detached σ) m (trace σ).
Definition log (es : list Event) (σ : State) : State :=
  mkState (heap σ) (manifest σ) (taskRegister σ) (targetRegister σ) (doneTasks σ)
    (inprogressTasks σ) (fsys σ) (calls σ) (promises σ) (detached σ) (main σ) (trace σ ++ es).

(** ** Registries *)

(** [Map.set] and [Map.get] on the task register: a key already there
    keeps its place and takes the new value. *)
Fixpoint map_set (k : string) (v : nat) (m : list (string * nat)) : list (string * nat) :=
  match m with
  | [] => [(k, v)]
  | (k', v') :: m' =>
      if decide (k = k') then (k, v) :: m' else (k', v') :: map_set k v m'
  end.

Fixpoint map_get (k : string) (m : list (string * nat)) : option nat :=
  match m with
  | [] => None
  | (k', v') :: m' => if decide (k = k') then Some v' else map_get k m'
  end.

(** [task(taskParams)]: a new task object, entered in the register under
    its name. Returns the reference to the object. *)
Definition task (taskParams : TaskParams) (σ : State) : nat * State :=
  let id := fresh (dom (heap σ)) in
  let T := new_Task taskParams in
  (id, set_taskRegister (map_set (name T) id) (set_heap <[id := T]> σ)).

Definition with_task_deps (d : list nat) (T : Task) : Task :=
  mkTask (name T) (description T) (action T) d (file_deps T) (targets T)
    (taskManifest T) (uptodate T).

Definition with_taskManifest (h : option string) (T : Task) : Task :=
  mkTask (name T) (description T) (action T) (task_deps T) (file_deps T) (targets T)
    h (uptodate T).

Module Task.

(** [setup] of the task object [t]. A reference always leads to an
    object; [None] stands for a reference that does not. *)
Definition setup (t : nat) (σ : State) : option State :=
  T ← heap σ !! t;
  let σ1 := set_targetRegister
              (λ r, foldl (λ r tf, <[path tf := t]> r) r (targets T)) σ in
  let σ2 := set_manifest (λ m, getOrInsert m (name T) ∅) σ1 in
  Some (set_heap <[t := with_taskManifest (Some (name T)) T]> σ2).

Definition has (s : gset nat) (t : nat) : bool := bool_decide (t ∈ s).

(** Lines 100-106: a file dependency that is some task's target makes
    that task a dependency. *)
Definition add_target_deps (reg : gmap string nat) (T : Task) : Task :=
  foldl (λ T fd, match reg !! path fd with
                 | Some t => with_task_deps (set_add t (task_deps T)) T
                 | None => T
                 end) T (file_deps T).

(** The loop of [execDependencies]. [exec] is [Task.exec] run up to its
    first suspension; [ps] is [promisesInProgress]. The list is kept in
    the state under the calling call, also after the [Promise.all]: line
    181 clears the variable, and nothing reads it after that. *)
Fixpoint execDependencies (exec : nat → State → option (Promise * State))
    (deps : list nat) (ps : list Promise) (σ : State) : option (list Promise * State) :=
  match deps with
  | [] => Some (ps, σ)
  | dep :: deps' =>
      if negb (has (doneTasks σ) dep) && negb (has (inprogressTasks σ) dep)
      then r ← exec dep σ; execDependencies exec deps' (ps ++ [r.1]) r.2
      else execDependencies exec deps' ps σ
  end.

(** [exec] from its first line to its first suspension, the
    [Promise.all] of [execDependencies]: the calls of [dep.exec()] in the
    loop run to their own first suspension before the loop goes on. A
    call that gets past the guards is a new call, beside any other call
    on the same task object. The recursion ends because every such call
    marks a task that was not marked; [fuel] bounds the depth. *)
Fixpoint exec_enter (fuel : nat) (t : nat) (σ : State) : option (Promise * State) :=
  match fuel with
  | 0 => None
  | S fuel' =>
      if has (doneTasks σ) t then Some (Settled, σ)
      else if has (inprogressTasks σ) t then Some (Settled, σ)
      else
        T ← heap σ !! t;
        let a := fresh (dom (calls σ)) in
        let σ1 := set_calls <[a := mkCall t Running]>
                    (set_inprogressTasks (λ s, {[t]} ∪ s) σ) in
        let T' := add_target_deps (targetRegister σ1) T in
        let σ2 := set_heap <[t := T']> σ1 in
        r ← execDependencies (exec_enter fuel') (task_deps T') [] σ2;
        Some (OfCall a,
              set_calls <[a := mkCall t AwaitDeps]> (set_promises <[a := r.1]> r.2))
  end.

(** One more than the number of task objects is depth enough. *)
Definition exec (t : nat) (σ : State) : option (Promise * State) :=
  exec_enter (S (size (heap σ))) t σ.

(** [checkFileDeps]. The loop reads every cached record before any
    promise settles. The probes are put one file after the other, and
    the records are written in the order of the loop; the order in which
    the promises of the source settle is the event loop's, and shows only
    where two file objects name one path. *)
Definition checkFileDeps_loop (fds : list TrackedFile) (tm : TaskManifest)
  : IO (bool * TaskManifest) :=
  rs ← mapM (λ fd, TrackedFile.getFileDataOrCached fd (getFileData_tm tm (path fd))) fds;
  mret (forallb snd rs,
        foldl (λ tm fr, setFileData_tm tm (path fr.1) (fr.2).1) tm (zip fds rs)).

(** With the null handle the first reading raises; without a file
    dependency the handle is not touched. *)
Definition checkFileDeps (T : Task) (m : Manifest) (fs : FS)
  : option (bool * Manifest * list Event) :=
  match file_deps T with
  | [] => Some (true, m, [])
  | _ :: _ =>
      key ← taskManifest T;
      let '(b, tm', es) := checkFileDeps_loop (file_deps T) (m !!! key) fs in
      Some (b, <[key := tm']> m, es)
  end.

(** [targetsExist]: all exist, that is not some not exist. *)
Definition targetsExist (T : Task) : IO bool :=
  tex ← mapM TrackedFile.exists_ (targets T);
  mret (negb (existsb negb tex)).

Definition call_uptodate (t : nat) (T : Task) : IO bool :=
  _ ← emit (EvUptodate t);
  fs ← ask;
  mret (uptodate T fs).

(** [b && await m]: [m] is not started when [b] is false. *)
Definition and_then (b : bool) (m : IO bool) : IO bool :=
  if b then m else mret false.

Definition show_bool (b : bool) : string := if b then "true" else "false".

(** Lines 110-119: the value of [actualUpToDate], the manifest after
    [checkFileDeps], and the calls made. *)
Definition actualUpToDate (t : nat) (T : Task) (m : Manifest) (fs : FS)
  : option (bool * Manifest * list Event) :=
  '(b1, m', es1) ← checkFileDeps T m fs;
  let l1 := [EvInfo (name T +:+ " checkFileDeps " +:+ show_bool b1)] in
  let '(b2, es2) := and_then b1 (targetsExist T) fs in
  let l2 := [EvInfo (name T +:+ " targetsExist " +:+ show_bool b2)] in
  let '(b3, es3) := and_then b2 (call_uptodate t T) fs in
  let l3 := [EvInfo (name T +:+ " uptodate " +:+ show_bool b3)] in
  Some (b3, m', es1 ++ l1 ++ es2 ++ l2 ++ es3 ++ l3).

(** Lines 140-141, and the return, of the call [a] on the task [t]. *)
Definition finish (a t : nat) (σ : State) : State :=
  set_calls <[a := mkCall t Returned]>
    (set_inprogressTasks (λ s, s ∖ {[t]})
       (set_doneTasks (λ s, {[t]} ∪ s) σ)).

(** Lines 110-125 of the call [a] on the task [t], run when
    [execDependencies] has resolved: the checks, then either the return
    or the call of the action. The probes of one call's checks are taken
    as one step of the program. *)
Definition exec_checks (a t : nat) (σ : State) : option State :=
  T ← heap σ !! t;
  '(b, m', es) ← actualUpToDate t T (manifest σ) (fsys σ);
  let σ1 := log es (set_manifest (λ _, m') σ) in
  if (b : bool) then
    Some (finish a t (log [EvInfo ("--- " +:+ name T)] σ1))
  else
    Some (set_calls <[a := mkCall t AwaitAction]>
            (log [EvInfo ("starting " +:+ name T); EvActionCall t] σ1)).

(** Lines 126-141 of the call [a] on the task [t], run when the action's
    promise has resolved. Each [fdep.getFileData().then(..)] is started
    and kept in [p] only: [promisesInProgress] stays empty, [Promise.all]
    of it resolves at once, and the task is marked done in the same turn,
    before any of the started promises can settle. *)
Definition exec_after_action (a t : nat) (σ : State) : option State :=
  T ← heap σ !! t;
  let σ1 := log [EvActionReturn t; EvInfo ("completed " +:+ name T)]
              (set_fsys (action T) σ) in
  let σ2 := set_detached (λ d, d ++ ((λ fd, (t, fd)) <$> file_deps T)) σ1 in
  Some (finish a t σ2).

(** One of the promises started after the action settles:
    [getFileData], then [this.taskManifest?.setFileData(fdep.path, x)].
    The probes of [getFileData] are all put at this step; the first of
    them, the log line and the call of [fs.exists], the source makes in
    the loop of line 132 already, and gets its answer here. *)
Definition settle (i : nat) (σ : State) : option State :=
  '(t, fd) ← detached σ !! i;
  T ← heap σ !! t;
  let '(x, es) := TrackedFile.getFileData fd (fsys σ) in
  let wr (m : Manifest) : Manifest :=
    match taskManifest T with
    | Some key => <[key := setFileData_tm (m !!! key) (path fd) x]> m
    | None => m
    end in
  Some (set_detached (delete i) (log es (set_manifest wr σ))).

End Task.

(** ** The entry point and the event loop *)

(** [Array.from(taskRegister.values()).map(t=>t.setup())]: [setup] has no
    suspension of its own, so the setups run one after the other. *)
Fixpoint setup_all (reg : list (string * nat)) (σ : State) : option State :=
  match reg with
  | [] => Some σ
  | kv :: reg' => σ' ← Task.setup kv.2 σ; setup_all reg' σ'
  end.

(** [exec(cliArgs)] up to its first suspension. [taskName] is
    [`${args["_"][0]}`] ([parse] is Deno's), [stored] is what
    [manifest.load()] reads. *)
Definition exec (taskName : string) (stored : Manifest) (σ : State) : option State :=
  if decide (taskName = "list") then
    let rows := (λ kv, match heap σ !! kv.2 with
                       | Some T => (name T, default "" (description T))
                       | None => (kv.1, "")
                       end) <$> taskRegister σ in
    Some (set_main Listed (log [EvTable rows] σ))
  else
    let σ1 := log [EvLoad] (set_manifest (λ _, stored) σ) in
    σ2 ← setup_all (taskRegister σ1) σ1;
    match map_get taskName (taskRegister σ2) with
    | Some t =>
        r ← Task.exec t σ2;
        Some (set_main (AwaitTask r.1) r.2)
    | None =>
        Some (set_main Saved
                (log [EvError ("task " +:+ taskName +:+ " not found"); EvSave] σ2))
    end.

(** What the event loop may run next: the continuation of the suspended
    call [a] of [Task.exec], one of the promises nothing awaits, or the
    rest of the entry point. *)
Inductive Choice :=
| Resume (a : nat)
| Settle (i : nat)
| Finish.

(** A continuation runs to the next suspension of its call in one step.
    A call that raises does not resume: the source catches nothing, so the
    calls awaiting it, up to the entry point, stop with it, and none of
    them has a further effect. Its step is not enabled. The same holds
    for an action that does not return. *)
Definition resolved (σ : State) (p : Promise) : bool :=
  match p with
  | Settled => true
  | OfCall a => bool_decide (phase <$> calls σ !! a = Some Returned)
  end.

Definition step (c : Choice) (σ : State) : option State :=
  match c with
  | Resume a =>
      c ← calls σ !! a;
      match phase c with
      | AwaitDeps =>
          if forallb (resolved σ) (promises σ !!! a)
          then Task.exec_checks a (callee c) σ else None
      | AwaitAction => Task.exec_after_action a (callee c) σ
      | _ => None
      end
  | Settle i => Task.settle i σ
  | Finish =>
      match main σ with
      | AwaitTask p =>
          if resolved σ p then Some (set_main Saved (log [EvSave] σ)) else None
      | _ => None
      end
  end.

(** A schedule: the choices of the event loop, in order. *)
Fixpoint run (cs : list Choice) (σ : State) : option State :=
  match cs with
  | [] => Some σ
  | c :: cs' => σ' ← step c σ; run cs' σ'
  end.

Definition steps (σ σ' : State) : Prop := ∃ c, step c σ = Some σ'.

(** The states of one invocation: from the state the entry point leaves
    at its first suspension, any number of steps. *)
Definition reachable (σ0 σ : State) : Prop := rtc steps σ0 σ.

(** ** Observations on traces and states *)

Definition is_gethash (e : Event) : bool :=
  match e with EvGethash _ _ => true | _ => false end.

(** How often the action of task [t] was called. *)
Definition action_calls (t : nat) (es : list Event) : nat :=
  length (filter (λ e, e = EvActionCall t) es).

(** The events the probes and the checks can make. *)
Definition is_probe (e : Event) : bool :=
  match e with
  | EvInfo _ | EvLstat _ | EvExists _ | EvGethash _ _ | EvUptodate _ => true
  | _ => false
  end.

Definition emits (P : Event → Prop) {A : Type} (m : IO A) : Prop :=
  ∀ fs, Forall P (m fs).2.

(** Every reference in the register leads to a task object, as it does
    after any number of calls of [task]. *)
Definition registry_ok (σ : State) : Prop :=
  Forall (λ kv : string * nat, is_Some (heap σ !! kv.2)) (taskRegister σ).

(** A process in which the tasks are declared and nothing has run. *)
Definition fresh_process (σ : State) : Prop :=
  doneTasks σ = ∅ ∧ inprogressTasks σ = ∅ ∧ calls σ = ∅ ∧ trace σ = [].

(** [σ] is a state of the invocation [exec [taskName]] of the process
    [σr], with [stored] on disk. *)
Definition invocation (taskName : string) (stored : Manifest) (σr σ : State) : Prop :=
  fresh_process σr ∧ ∃ σ0, exec taskName stored σr = Some σ0 ∧ reachable σ0 σ.

(** ** The invariant of the calls *)

(** What holds of every call of [Task.exec] between two steps: the two
    sets follow the phase of the call, the action of its task was called
    at most once and exactly once while it is awaited, the promises in
    [promisesInProgress] are calls on task dependencies, and past the
    [Promise.all] every one of them has resolved. *)
Definition awaited_done (σ : State) (a : nat) : Prop :=
  ∀ b, OfCall b ∈ promises σ !!! a → phase <$> calls σ !! b = Some Returned.

Definition promised_deps (σ : State) (a t : nat) : Prop :=
  ∀ b, OfCall b ∈ promises σ !!! a →
       ∃ T d, heap σ !! t = Some T ∧ callee <$> calls σ !! b = Some d ∧ d ∈ task_deps T.

Definition phase_ok (σ : State) (a t : nat) (ph : Phase) : Prop :=
  match ph with
  | Running =>
      (t ∉ doneTasks σ) ∧ (t ∈ inprogressTasks σ) ∧ action_calls t (trace σ) = 0
  | AwaitDeps =>
      (t ∉ doneTasks σ) ∧ (t ∈ inprogressTasks σ) ∧ action_calls t (trace σ) = 0 ∧
      promised_deps σ a t
  | AwaitAction =>
      (t ∉ doneTasks σ) ∧ (t ∈ inprogressTasks σ) ∧ action_calls t (trace σ) = 1 ∧
      awaited_done σ a ∧ promised_deps σ a t
  | Returned =>
      (t ∈ doneTasks σ) ∧ (t ∉ inprogressTasks σ) ∧ action_calls t (trace σ) ≤ 1 ∧
      awaited_done σ a ∧ promised_deps σ a t
  end.

Definition call_ok (σ : State) (a : nat) : Prop :=
  match calls σ !! a with
  | Some c => phase_ok σ a (callee c) (phase c)
  | None => True
  end.

(** A task that is in one of the two sets, or whose action was called,
    has a call; and the guards let one call through for each task. *)
Definition task_called (σ : State) (t : nat) : Prop :=
  t ∈ doneTasks σ ∨ t ∈ inprogressTasks σ ∨ 0 < action_calls t (trace σ) →
  ∃ a, callee <$> calls σ !! a = Some t.

Definition one_call (σ : State) : Prop :=
  ∀ a b t, callee <$> calls σ !! a = Some t → callee <$> calls σ !! b = Some t → a = b.

Definition Inv (σ : State) : Prop :=
  (∀ a, call_ok σ a) ∧ (∀ t, task_called σ t) ∧ one_call σ.

(** What a step may change in the two sets. *)
Definition grows (σ σ' : State) : Prop :=
  doneTasks σ ⊆ doneTasks σ' ∧
  doneTasks σ ∪ inprogressTasks σ ⊆ doneTasks σ' ∪ inprogressTasks σ'.

(** What the run of [Task.exec] to its first suspension leaves alone. *)
Definition kept (σ σ' : State) : Prop :=
  trace σ' = trace σ ∧
  doneTasks σ' = doneTasks σ ∧
  inprogressTasks σ ⊆ inprogressTasks σ' ∧
  (∀ a c, calls σ !! a = Some c →
          calls σ' !! a = Some c ∧ heap σ' !! callee c = heap σ !! callee c) ∧
  (∀ a, is_Some (calls σ !! a) → promises σ' !!! a = promises σ !!! a).

(** What a call [t.exec()] gave back is the promise of a call on [t]. *)
Definition promise_of (σ : State) (p : Promise) (t : nat) : Prop :=
  match p with
  | Settled => True
  | OfCall b => callee <$> calls σ !! b = Some t
  end.

(** The task objects that are neither done nor in progress, and the
    condition that every reference held by a task object or by the target
    register leads to a task object. *)
Definition unmarked (σ : State) : gset nat :=
  dom (heap σ) ∖ (doneTasks σ ∪ inprogressTasks σ).

Definition closed (σ : State) : Prop :=
  (∀ t T d, heap σ !! t = Some T → d ∈ task_deps T → d ∈ dom (heap σ)) ∧
  (∀ p t, targetRegister σ !! p = Some t → t ∈ dom (heap σ)).

Definition entered (σ σ' : State) : Prop :=
  dom (heap σ') = dom (heap σ) ∧
  targetRegister σ' = targetRegister σ ∧
  closed σ' ∧
  doneTasks σ ⊆ doneTasks σ' ∧
  inprogressTasks σ ⊆ inprogressTasks σ'.

(** ** Two statements as the specification words them *)

(** A task acts only after the dependency that makes one of its files is
    done, at the state [σ]: [D] is a task dependency of [T], some target of
    [D] is a file dependency of [T], and the action of [T] has been
    called. *)
Definition dependency_first (σ : State) : Prop :=
  ∀ (T D : nat) (Tobj Dobj : Task) (p : string),
    heap σ !! T = Some Tobj → heap σ !! D = Some Dobj →
    D ∈ task_deps Tobj →
    p ∈ path <$> targets Dobj → p ∈ path <$> file_deps Tobj →
    EvActionCall T ∈ trace σ →
    D ∈ doneTasks σ.

(** On a name that is not in the register the entry point does not raise,
    logs an error, and saves the manifest after that. *)
Definition reports_unknown (taskName : string) (stored : Manifest) (σ : State) : Prop :=
  ∃ σ' msg pre post,
    exec taskName stored σ = Some σ' ∧
    trace σ' = pre ++ EvError msg :: post ∧
    EvSave ∈ post.

(** ** Small programs used as inputs *)

Module Ex.
(** A hash that is the text itself keeps the examples readable. *)
Definition texthash : string → FS → string :=
  λ p fs, from_option content "" (fs !! p).
Definition src : TrackedFile := mkFile 0 "/src.txt" texthash.
Definition gone : TrackedFile := mkFile 1 "/gone.txt" texthash.
Definition fs1 : FS := {[ "/src.txt" := mkEntry (Some "t1") "a" ]}.
End Ex.

Module ExCompile.
(** [compile]: reads [/src.txt], writes [/out.bin]. *)
Definition out : TrackedFile := mkFile 2 "/out.bin" Ex.texthash.
Definition compile : TaskParams :=
  mkTaskParams "compile" None (λ fs, <["/out.bin" := mkEntry (Some "t9") "bin"]> fs)
    None (Some [Ex.src]) None (Some [out]) None.
(** What the previous run left: [/src.txt] as it still is. *)
Definition stored : Manifest := {[ "compile" := {[ "/src.txt" := mkData "a" "t1" ]} ]}.
(** The process at the first suspension of [exec ["compile"]]. *)
Definition s0 : State :=
  default (init ∅) (exec "compile" stored (task compile (init Ex.fs1)).2).

(** [always]: no file, no target, no predicate. *)
Definition always : TaskParams :=
  mkTaskParams "always" None id None None None None None.
Definition sa : State :=
  default (init ∅) (exec "always" ∅ (task always (init Ex.fs1)).2).
End ExCompile.

Module ExRun.
(** The invocation of [compile] after the checks and the action. *)
Definition sr : State := (task ExCompile.compile (init Ex.fs1)).2.
Definition s1 : State := default (init ∅) (run [Resume 0] ExCompile.s0).
Definition s2 : State := default (init ∅) (run [Resume 0; Resume 0] ExCompile.s0).
End ExRun.

Module ExDiamond.
(** [gen] writes [/gen.txt]; [lint] and [use] both depend on [gen], and
    [use] reads [/gen.txt]; [all] depends on [lint] and [use]. *)
Definition genfile : TrackedFile := mkFile 3 "/gen.txt" Ex.texthash.
Definition gen : TaskParams :=
  mkTaskParams "gen" None (λ fs, <["/gen.txt" := mkEntry (Some "t5") "new"]> fs)
    None None None (Some [genfile]) None.
Definition lint : TaskParams :=
  mkTaskParams "lint" None id (Some [0]) None None None None.
Definition use : TaskParams :=
  mkTaskParams "use" None id (Some [0]) (Some [genfile]) None None None.
Definition all : TaskParams :=
  mkTaskParams "all" None id (Some [1; 2]) None None None None.
Definition sr : State :=
  (task all (task use (task lint (task gen (init ∅)).2).2).2).2.
Definition s0 : State := default (init ∅) (exec "all" ∅ sr).
(** The calls are numbered as they are made: [all] 0, [lint] 1, [gen] 2,
    [use] 3. [gen] starts its action; before it returns, [use] runs its
    checks and starts its own. Then [gen]'s action returns. *)
Definition s2 : State := default (init ∅) (run [Resume 2; Resume 3] s0).
Definition s3 : State := default (init ∅) (run [Resume 2] s2).
(** Another schedule: [gen] runs to its end, then [lint] starts its
    action, and returns. *)
Definition s4 : State := default (init ∅) (run [Resume 2; Resume 2; Resume 1] s0).
Definition s5 : State := default (init ∅) (run [Resume 1] s4).
(** Then [use] and [all] run to their ends, and the manifest is saved. *)
Definition s9 : State :=
  default (init ∅) (run [Resume 3; Resume 3; Resume 0; Resume 0; Finish] s5).
End ExDiamond.

Module ExFmt.
(** [fmt] rewrites the file it depends on. *)
Definition fmt : TaskParams :=
  mkTaskParams "fmt" None (λ fs, <["/src.txt" := mkEntry (Some "t2") "A"]> fs)
    None (Some [Ex.src]) None None None.
Definition sr : State := (task fmt (init Ex.fs1)).2.
Definition s0 : State := default (init ∅) (exec "fmt" ∅ sr).
(** The checks, then the return of the action. *)
Definition s2 : State := default (init ∅) (run [Resume 0; Resume 0] s0).
(** The entry point goes on to save. *)
Definition s3 : State := default (init ∅) (run [Finish] s2).
End ExFmt.


(** ** More observations *)

(** The record [checkFileDeps] writes for a file dependency: what
    [getFileDataOrCached] answers against the record read when the check
    began. *)
Definition checked (tm : TaskManifest) (fs : FS) (fd : TrackedFile) : TrackedFileData :=
  (TrackedFile.getFileDataOrCached fd (getFileData_tm tm (path fd)) fs).1.1.

Module ExCheck.
(** The [compile] task object after [setup]. *)
Definition obj : Task := with_taskManifest (Some "compile") (new_Task ExCompile.compile).
(** A cache that has the file under another timestamp and another text. *)
Definition stale : Manifest := {[ "compile" := {[ "/src.txt" := mkData "z" "t0" ]} ]}.
End ExCheck.

Module ExSkip.
(** [keep] has a predicate that answers true, a fresh file dependency and
    a target that exists. *)
Definition keep : TaskParams :=
  mkTaskParams "keep" None id None (Some [Ex.src]) None (Some [Ex.src]) (Some (λ _, true)).
Definition stored : Manifest := {[ "keep" := {[ "/src.txt" := mkData "a" "t1" ]} ]}.
Definition s0 : State := default (init ∅) (exec "keep" stored (task keep (init Ex.fs1)).2).
End ExSkip.

(** The task object [u] has its handle, and the record the handle leads
    to is in the manifest. *)
Definition handle_set (σ : State) (u : nat) : Prop :=
  ∃ T, heap σ !! u = Some T ∧ taskManifest T = Some (name T) ∧
       is_Some (manifest σ !! name T).

Module ExSetup.
(** Two tasks that both declare [/out.bin] as a target; the manifest is
    loaded, then the tasks are set up. *)
Definition again : TaskParams :=
  mkTaskParams "again" None id None None None (Some [ExCompile.out]) None.
Definition loaded : State :=
  log [EvLoad]
    (set_manifest (λ _, ExCompile.stored)
       (task again (task ExCompile.compile (init Ex.fs1)).2).2).
Definition ready : State := default (init ∅) (setup_all (taskRegister loaded) loaded).
End ExSetup.

Module ExCycle.
(** [a] reads [/f.txt], which [b] declares as a target, and [b] depends
    on [a]: the target register makes [b] a dependency of [a], and the
    two depend on each other. *)
Definition f : TrackedFile := mkFile 4 "/f.txt" Ex.texthash.
Definition a : TaskParams :=
  mkTaskParams "a" None id None (Some [f]) None None None.
Definition b : TaskParams :=
  mkTaskParams "b" None (λ fs, <["/f.txt" := mkEntry (Some "t3") "f"]> fs)
    (Some [0]) None None (Some [f]) None.
Definition sr : State := (task b (task a (init ∅)).2).2.
End ExCycle.


(** * Properties *)

(** ** Tracked files *)

Ltac io_unfold :=
  unfold TrackedFile.isUpToDate, TrackedFile.getFileData, TrackedFile.getHash,
    TrackedFile.exists_, TrackedFile.getTimestamp, mbind, IO_bind, mret, IO_ret,
    emit, ask in *.

Lemma getTimestamp_events f fs :
  (TrackedFile.getTimestamp f fs).2 = [EvLstat (path f)].
Proof. io_unfold. by destruct (fs !! path f). Qed.

Lemma isUpToDate_fast f d fs :
  (TrackedFile.getTimestamp f fs).1 = timestamp d →
  TrackedFile.isUpToDate f (Some d) fs = (true, [EvLstat (path f)]).
Proof.
  intros Hts. unfold TrackedFile.isUpToDate, mbind, IO_bind.
  pose proof (getTimestamp_events f fs) as Hev.
  destruct (TrackedFile.getTimestamp f fs) as [mt es]; simpl in *; subst.
  by rewrite decide_True.
Qed.

Lemma isUpToDate_slow f d fs :
  (TrackedFile.getTimestamp f fs).1 ≠ timestamp d →
  (TrackedFile.isUpToDate f (Some d) fs).1
  = bool_decide ((TrackedFile.getHash f fs).1 = hash d).
Proof.
  intros Hts. unfold TrackedFile.isUpToDate, mbind, IO_bind.
  destruct (TrackedFile.getTimestamp f fs) as [mt es]; simpl in *.
  rewrite decide_False by done.
  by destruct (TrackedFile.getHash f fs) as [h es'].
Qed.

(** C2. [isUpToDate] answers false without a cached record; with a cached
    record whose timestamp is the file's, it answers true and calls
    nothing but [lstat], so [gethash] is not called; with a different
    timestamp it answers true exactly when [getHash] gives the cached
    hash. Hence equal content is up to date whatever the timestamp. *)
Theorem isUpToDate_spec (f : TrackedFile) (fs : FS) :
  TrackedFile.isUpToDate f None fs = (false, []) ∧
  ∀ d : TrackedFileData,
    let r := TrackedFile.isUpToDate f (Some d) fs in
    ((TrackedFile.getTimestamp f fs).1 = timestamp d →
       r.1 = true ∧ r.2 = [EvLstat (path f)] ∧ existsb is_gethash r.2 = false) ∧
    ((TrackedFile.getTimestamp f fs).1 ≠ timestamp d →
       (r.1 = true ↔ (TrackedFile.getHash f fs).1 = hash d)) ∧
    ((TrackedFile.getHash f fs).1 = hash d → r.1 = true).
Proof.
  split; [done|]. intros d r. subst r.
  split; [|split].
  - intros Hts. by rewrite (isUpToDate_fast _ _ _ Hts).
  - intros Hts. rewrite (isUpToDate_slow _ _ _ Hts). by rewrite bool_decide_eq_true.
  - intros Hh. destruct (decide ((TrackedFile.getTimestamp f fs).1 = timestamp d)) as [Hts|Hts].
    + by rewrite (isUpToDate_fast _ _ _ Hts).
    + rewrite (isUpToDate_slow _ _ _ Hts). by rewrite bool_decide_eq_true.
Qed.

Lemma isUpToDate_spec_witness :
  (TrackedFile.isUpToDate Ex.src (Some (mkData "a" "t1")) Ex.fs1).1 = true ∧
  (TrackedFile.isUpToDate Ex.src (Some (mkData "a" "t0")) Ex.fs1).1 = true ∧
  ((TrackedFile.isUpToDate Ex.src (Some (mkData "b" "t0")) Ex.fs1).1 = true ↔
     (TrackedFile.getHash Ex.src Ex.fs1).1 = "b").
Proof.
  split; [|split].
  - apply (isUpToDate_spec Ex.src Ex.fs1). vm_compute. reflexivity.
  - apply (isUpToDate_spec Ex.src Ex.fs1). vm_compute. reflexivity.
  - apply (proj2 (isUpToDate_spec Ex.src Ex.fs1) (mkData "b" "t0")).
    vm_compute. discriminate.
Defined.

(** C10. For a path with no entry, [getTimestamp] and [getHash] both give
    the empty string; and against a cached record with the empty
    timestamp, [isUpToDate] answers true after the [lstat] alone. *)
Theorem missing_file_sentinels (f : TrackedFile) (fs : FS) (d : TrackedFileData) :
  fs !! path f = None →
  (TrackedFile.getTimestamp f fs).1 = "" ∧
  (TrackedFile.getHash f fs).1 = "" ∧
  (timestamp d = "" →
     TrackedFile.isUpToDate f (Some d) fs = (true, [EvLstat (path f)])).
Proof.
  intros Hno.
  assert (Hts : (TrackedFile.getTimestamp f fs).1 = "").
  { io_unfold. by rewrite Hno. }
  split; [done|]. split.
  - clear Hts. io_unfold. by rewrite Hno.
  - intros Hd. apply isUpToDate_fast. by rewrite Hts, Hd.
Qed.

Lemma missing_file_sentinels_witness :
  (TrackedFile.getTimestamp Ex.gone Ex.fs1).1 = "" ∧
  (TrackedFile.getHash Ex.gone Ex.fs1).1 = "" ∧
  (timestamp (mkData "" "") = "" →
     TrackedFile.isUpToDate Ex.gone (Some (mkData "" "")) Ex.fs1
     = (true, [EvLstat (path Ex.gone)])).
Proof. apply (missing_file_sentinels Ex.gone Ex.fs1 (mkData "" "")). vm_compute. reflexivity. Defined.

(** ** The freshness decision *)

Lemma mapM_exists_val (l : list TrackedFile) (fs : FS) :
  (mapM TrackedFile.exists_ l fs).1
  = (λ tf, bool_decide (is_Some (fs !! path tf))) <$> l.
Proof.
  induction l as [|tf l IH]; [done|].
  simpl. unfold mbind, IO_bind at 1.
  destruct (TrackedFile.exists_ tf fs) as [b e1] eqn:He.
  unfold mbind, IO_bind at 1.
  destruct (mapM TrackedFile.exists_ l fs) as [bs e2]; simpl in *.
  subst bs. f_equal.
  unfold TrackedFile.exists_, mbind, IO_bind, emit, ask, mret, IO_ret in He.
  simpl in He. by inversion He.
Qed.

Lemma targetsExist_true (T : Task) (fs : FS) :
  (Task.targetsExist T fs).1 = true ↔ ∀ tf, tf ∈ targets T → is_Some (fs !! path tf).
Proof.
  unfold Task.targetsExist, mbind, IO_bind at 1.
  pose proof (mapM_exists_val (targets T) fs) as Hv.
  destruct (mapM TrackedFile.exists_ (targets T) fs) as [tex es]; simpl in *.
  subst tex. rewrite negb_true_iff. split.
  - intros Hno tf Hin.
    destruct (decide (is_Some (fs !! path tf))) as [|Hn]; [done|].
    assert (existsb negb ((λ tf, bool_decide (is_Some (fs !! path tf))) <$> targets T) = true)
      as Hex; [|congruence].
    apply existsb_exists. exists false. split; [|done].
    apply list_elem_of_In, list_elem_of_fmap. exists tf. split; [|done].
    by rewrite bool_decide_eq_false_2.
  - intros Hall. apply not_true_is_false. intros Hex.
    apply existsb_exists in Hex as (b & Hin & Hb).
    apply list_elem_of_In, list_elem_of_fmap in Hin as (tf & -> & Hin).
    apply negb_true_iff, bool_decide_eq_false in Hb. auto.
Qed.

Lemma actualUpToDate_eq (t : nat) (T : Task) (m m' : Manifest) (fs : FS)
    (b1 : bool) (es1 : list Event) :
  Task.checkFileDeps T m fs = Some (b1, m', es1) →
  Task.actualUpToDate t T m fs
  = Some (b1 && (Task.targetsExist T fs).1 && uptodate T fs, m',
          es1 ++ [EvInfo (name T +:+ " checkFileDeps " +:+ Task.show_bool b1)]
              ++ (if b1 then (Task.targetsExist T fs).2 else [])
              ++ [EvInfo (name T +:+ " targetsExist "
                          +:+ Task.show_bool (b1 && (Task.targetsExist T fs).1))]
              ++ (if b1 && (Task.targetsExist T fs).1 then [EvUptodate t] else [])
              ++ [EvInfo (name T +:+ " uptodate "
                          +:+ Task.show_bool
                                (b1 && (Task.targetsExist T fs).1 && uptodate T fs))]).
Proof.
  intros Hc. unfold Task.actualUpToDate. rewrite Hc. simpl.
  destruct b1; simpl.
  - destruct (Task.targetsExist T fs) as [b2 es2]; simpl.
    destruct b2; simpl; done.
  - done.
Qed.

(** C5. [actualUpToDate] is the conjunction of the three checks in the
    order file dependencies, targets, predicate; the probes of the targets
    are made only if the file dependencies were fresh, and the predicate is
    called only if both earlier checks passed. *)
Theorem actualUpToDate_short_circuit (t : nat) (T : Task) (m m' : Manifest) (fs : FS)
    (b1 : bool) (es1 : list Event) :
  Task.checkFileDeps T m fs = Some (b1, m', es1) →
  let b2 := (Task.targetsExist T fs).1 in
  let es2 := (Task.targetsExist T fs).2 in
  let b3 := uptodate T fs in
  let info s b := EvInfo (name T +:+ s +:+ Task.show_bool b) in
  Task.actualUpToDate t T m fs
  = Some (b1 && b2 && b3, m',
          es1 ++ [info " checkFileDeps " b1]
              ++ (if b1 then es2 else [])
              ++ [info " targetsExist " (b1 && b2)]
              ++ (if b1 && b2 then [EvUptodate t] else [])
              ++ [info " uptodate " (b1 && b2 && b3)]).
Proof.
  intros Hc. simpl. unfold Task.actualUpToDate. rewrite Hc. simpl.
  destruct b1; simpl.
  - destruct (Task.targetsExist T fs) as [b2 es2]; simpl.
    destruct b2; simpl; [|done].
    done.
  - done.
Qed.

Lemma actualUpToDate_short_circuit_witness :
  Task.actualUpToDate 0
    (new_Task (mkTaskParams "t" None id None None None (Some [Ex.gone]) None)) ∅ Ex.fs1
  = Some (false, ∅,
          [EvInfo "t checkFileDeps true"; EvInfo "checking exists /gone.txt";
           EvExists "/gone.txt"; EvInfo "t targetsExist false";
           EvInfo "t uptodate false"]).
Proof.
  apply (actualUpToDate_short_circuit 0
           (new_Task (mkTaskParams "t" None id None None None (Some [Ex.gone]) None))
           ∅ ∅ Ex.fs1 true []).
  reflexivity.
Defined.

Lemma exec_checks_calls_action (a t : nat) (T : Task) (σ : State) (m' : Manifest)
    (es : list Event) :
  heap σ !! t = Some T →
  Task.actualUpToDate t T (manifest σ) (fsys σ) = Some (false, m', es) →
  ∃ σ', Task.exec_checks a t σ = Some σ' ∧
        calls σ' !! a = Some (mkCall t AwaitAction) ∧
        last (trace σ') = Some (EvActionCall t) ∧
        doneTasks σ' = doneTasks σ.
Proof.
  intros Ht Hup. unfold Task.exec_checks. rewrite Ht. simpl. rewrite Hup. simpl.
  eexists. split; [done|]. simpl. split; [by rewrite lookup_insert_eq|].
  split; [|done].
  by rewrite last_app.
Qed.

(** C6. With every file dependency fresh, one declared target without an
    entry in the file system makes [actualUpToDate] false, and the call of
    [exec], whichever call [a] on the task it is, goes on to call the
    action. [targetsExist] answers true exactly when every declared target
    has an entry. *)
Theorem missing_target_forces_rerun (a t : nat) (T : Task) (σ : State) (m' : Manifest)
    (es1 : list Event) (tf : TrackedFile) :
  heap σ !! t = Some T →
  Task.checkFileDeps T (manifest σ) (fsys σ) = Some (true, m', es1) →
  tf ∈ targets T →
  fsys σ !! path tf = None →
  (Task.targetsExist T (fsys σ)).1 = false ∧
  (∃ es, Task.actualUpToDate t T (manifest σ) (fsys σ) = Some (false, m', es)) ∧
  (∃ σ', Task.exec_checks a t σ = Some σ' ∧
         calls σ' !! a = Some (mkCall t AwaitAction) ∧
         last (trace σ') = Some (EvActionCall t)) ∧
  (∀ (T0 : Task) (fs : FS),
     (Task.targetsExist T0 fs).1 = true ↔
     ∀ tf0, tf0 ∈ targets T0 → is_Some (fs !! path tf0)).
Proof.
  intros Ht Hc Hin Hno.
  assert (Hte : (Task.targetsExist T (fsys σ)).1 = false).
  { apply not_true_is_false. intros Hte.
    pose proof (proj1 (targetsExist_true T (fsys σ)) Hte tf Hin) as Hsome.
    rewrite Hno in Hsome. by destruct Hsome. }
  pose proof (actualUpToDate_eq t T _ _ _ _ _ Hc) as Hup.
  simpl in Hup. rewrite Hte in Hup. simpl in Hup.
  split; [done|]. split; [eauto|]. split.
  - destruct (exec_checks_calls_action a t T σ _ _ Ht Hup) as (σ' & ? & ? & ? & ?).
    eauto.
  - intros. apply targetsExist_true.
Qed.

(** C7. A task built without a predicate gets [runAlways], which answers
    false whatever the files are; so a task object with that predicate, no
    file dependency and no target is never up to date, and the call of
    [exec] that reaches the checks calls the action. *)
Theorem default_predicate_reruns (a t : nat) (T : Task) (σ : State) :
  heap σ !! t = Some T →
  uptodate T = runAlways →
  file_deps T = [] →
  targets T = [] →
  (∀ fs, runAlways fs = false) ∧
  (∀ taskParams, p_uptodate taskParams = None →
                 uptodate (new_Task taskParams) = runAlways) ∧
  (∃ es, Task.actualUpToDate t T (manifest σ) (fsys σ) = Some (false, manifest σ, es)) ∧
  (∃ σ', Task.exec_checks a t σ = Some σ' ∧
         calls σ' !! a = Some (mkCall t AwaitAction) ∧
         last (trace σ') = Some (EvActionCall t)).
Proof.
  intros Ht Hu Hf Hg.
  split; [done|]. split.
  { intros p Hp. unfold new_Task. simpl. by rewrite Hp. }
  assert (Hc : Task.checkFileDeps T (manifest σ) (fsys σ) = Some (true, manifest σ, [])).
  { unfold Task.checkFileDeps. by rewrite Hf. }
  pose proof (actualUpToDate_eq t T _ _ _ _ _ Hc) as Hup.
  simpl in Hup. rewrite Hu in Hup. unfold runAlways in Hup.
  rewrite andb_false_r in Hup.
  split; [eauto|].
  destruct (exec_checks_calls_action a t T σ _ _ Ht Hup) as (σ' & ? & ? & ? & ?).
  eauto.
Qed.

Lemma missing_target_forces_rerun_witness :
  ∃ σ', Task.exec_checks 0 0 ExCompile.s0 = Some σ' ∧
        calls σ' !! 0 = Some (mkCall 0 AwaitAction) ∧
        last (trace σ') = Some (EvActionCall 0).
Proof.
  eapply (missing_target_forces_rerun 0 0 _ ExCompile.s0 _ _ ExCompile.out).
  - vm_compute. reflexivity.
  - vm_compute. reflexivity.
  - vm_compute. apply list_elem_of_here.
  - vm_compute. reflexivity.
Defined.

Lemma default_predicate_reruns_witness :
  ∃ σ', Task.exec_checks 0 0 ExCompile.sa = Some σ' ∧
        calls σ' !! 0 = Some (mkCall 0 AwaitAction) ∧
        last (trace σ') = Some (EvActionCall 0).
Proof.
  eapply (default_predicate_reruns 0 0 _ ExCompile.sa).
  - vm_compute. reflexivity.
  - reflexivity.
  - reflexivity.
  - reflexivity.
Defined.

(** ** The entry point *)

Lemma setup_same (t : nat) (σ σ' : State) :
  Task.setup t σ = Some σ' →
  dom (heap σ') = dom (heap σ) ∧ taskRegister σ' = taskRegister σ ∧
  trace σ' = trace σ ∧ calls σ' = calls σ ∧ main σ' = main σ.
Proof.
  unfold Task.setup. destruct (heap σ !! t) as [T|] eqn:Ht; [|done].
  simpl. intros [= <-]. simpl. split; [|done].
  rewrite dom_insert_L. apply elem_of_dom_2 in Ht.
  apply subseteq_union_1_L. by apply singleton_subseteq_l.
Qed.

Lemma setup_all_total (reg : list (string * nat)) (σ : State) :
  Forall (λ kv : string * nat, is_Some (heap σ !! kv.2)) reg →
  ∃ σ', setup_all reg σ = Some σ' ∧
        dom (heap σ') = dom (heap σ) ∧ taskRegister σ' = taskRegister σ ∧
        trace σ' = trace σ ∧ calls σ' = calls σ.
Proof.
  revert σ. induction reg as [|kv reg IH]; intros σ Hok; [by eexists|].
  apply Forall_cons in Hok as [[T Hkv] Hok]. simpl.
  destruct (Task.setup kv.2 σ) as [σ1|] eqn:Hs.
  2:{ unfold Task.setup in Hs. by rewrite Hkv in Hs. }
  simpl. destruct (setup_same _ _ _ Hs) as (Hd & Hr & Htr & Hc & _).
  destruct (IH σ1) as (σ' & Hall & Hd' & Hr' & Htr' & Hc').
  { eapply Forall_impl; [apply Hok|]. intros kv' Hsome. simpl in *.
    apply elem_of_dom. rewrite Hd. by apply elem_of_dom. }
  exists σ'. split; [done|]. by rewrite Hd', Hr', Htr', Hc'.
Qed.

(** C9. Given a name that is not in the register and
    is not [list], which the entry point takes as its command before it
    looks any name up, the entry point runs to its end: it loads the
    manifest, sets the tasks up, logs the error, saves the manifest, and
    returns. No call of [Task.exec] is made. *)
Theorem unknown_task_reported (taskName : string) (stored : Manifest) (σ : State) :
  registry_ok σ →
  taskName ≠ "list" →
  map_get taskName (taskRegister σ) = None →
  reports_unknown taskName stored σ ∧
  ∃ σ', exec taskName stored σ = Some σ' ∧
        main σ' = Saved ∧
        trace σ' = trace σ ++ [EvLoad; EvError ("task " +:+ taskName +:+ " not found"); EvSave] ∧
        calls σ' = calls σ.
Proof.
  intros Hok Hl Hno. unfold reports_unknown, exec. rewrite decide_False by done.
  destruct (setup_all_total (taskRegister σ) (log [EvLoad] (set_manifest (λ _, stored) σ)))
    as (σ2 & Hall & _ & Hr & Htr & Hc); [done|].
  simpl in *. rewrite Hall. simpl. rewrite Hr, Hno. split.
  - eexists _, _, (trace σ ++ [EvLoad]), [EvSave]. split; [done|]. simpl.
    rewrite Htr. simpl. split; [done|apply list_elem_of_here].
  - eexists. split; [done|]. simpl. rewrite Htr, Hc.
    by rewrite <- app_assoc.
Qed.

Lemma unknown_task_reported_witness :
  reports_unknown "deploy" ExCompile.stored (task ExCompile.compile (init Ex.fs1)).2 ∧
  ∃ σ', exec "deploy" ExCompile.stored (task ExCompile.compile (init Ex.fs1)).2 = Some σ' ∧
        main σ' = Saved ∧
        trace σ' = [EvLoad; EvError "task deploy not found"; EvSave] ∧
        calls σ' = ∅.
Proof.
  apply (unknown_task_reported "deploy" ExCompile.stored
           (task ExCompile.compile (init Ex.fs1)).2).
  - repeat constructor. vm_compute. eauto.
  - discriminate.
  - reflexivity.
Defined.

(** ** What the probes emit *)

Lemma emits_ret P {A} (a : A) : emits P (mret a).
Proof. intros fs. constructor. Qed.

Lemma emits_ask P : emits P ask.
Proof. intros fs. constructor. Qed.

Lemma emits_emit (P : Event → Prop) e : P e → emits P (emit e).
Proof. intros He fs. by repeat constructor. Qed.

Lemma emits_bind P {A B} (m : IO A) (k : A → IO B) :
  emits P m → (∀ a, emits P (k a)) → emits P (m ≫= k).
Proof.
  intros Hm Hk fs. unfold mbind, IO_bind.
  specialize (Hm fs). destruct (m fs) as [a e1].
  specialize (Hk a fs). destruct (k a fs) as [b e2]. simpl in *.
  by apply Forall_app.
Qed.

Lemma emits_mapM P {A B} (f : A → IO B) (l : list A) :
  (∀ a, emits P (f a)) → emits P (mapM f l).
Proof.
  intros Hf. induction l as [|a l IH]; simpl.
  - apply emits_ret.
  - apply emits_bind; [done|]. intros b.
    apply emits_bind; [done|]. intros bs. apply emits_ret.
Qed.

Create HintDb emits.
#[local] Hint Resolve emits_ret emits_ask emits_emit emits_mapM : emits.

Ltac emits_tac :=
  repeat first
    [ apply emits_bind; [|intros ?]
    | apply emits_ret | apply emits_ask
    | apply emits_emit; done
    | apply emits_mapM; intros ?
    | progress eauto with emits
    | match goal with
      | |- emits _ (match ?x with _ => _ end) => destruct x
      | |- emits _ (if ?b then _ else _) => destruct b
      end ].

Lemma getTimestamp_probes f : emits is_probe (TrackedFile.getTimestamp f).
Proof. unfold TrackedFile.getTimestamp. emits_tac. Qed.

Lemma exists_probes f : emits is_probe (TrackedFile.exists_ f).
Proof. unfold TrackedFile.exists_. emits_tac. Qed.

#[local] Hint Resolve getTimestamp_probes exists_probes : emits.

Lemma getHash_probes f : emits is_probe (TrackedFile.getHash f).
Proof. unfold TrackedFile.getHash. emits_tac. Qed.

#[local] Hint Resolve getHash_probes : emits.

Lemma getFileData_probes f : emits is_probe (TrackedFile.getFileData f).
Proof. unfold TrackedFile.getFileData. emits_tac. Qed.

Lemma isUpToDate_probes f d : emits is_probe (TrackedFile.isUpToDate f d).
Proof. unfold TrackedFile.isUpToDate. emits_tac. Qed.

#[local] Hint Resolve getFileData_probes isUpToDate_probes : emits.

Lemma getFileDataOrCached_probes f d :
  emits is_probe (TrackedFile.getFileDataOrCached f d).
Proof. unfold TrackedFile.getFileDataOrCached. emits_tac. Qed.

Lemma targetsExist_probes T : emits is_probe (Task.targetsExist T).
Proof. unfold Task.targetsExist. emits_tac. Qed.

Lemma call_uptodate_probes t T : emits is_probe (Task.call_uptodate t T).
Proof. unfold Task.call_uptodate. emits_tac. Qed.

#[local] Hint Resolve getFileDataOrCached_probes targetsExist_probes
  call_uptodate_probes : emits.

Lemma checkFileDeps_loop_probes fds tm : emits is_probe (Task.checkFileDeps_loop fds tm).
Proof. unfold Task.checkFileDeps_loop. emits_tac. Qed.

Lemma checkFileDeps_probes T m fs b m' es :
  Task.checkFileDeps T m fs = Some (b, m', es) → Forall is_probe es.
Proof.
  unfold Task.checkFileDeps. destruct (file_deps T) as [|fd fds] eqn:Hf.
  { intros [= <- <- <-]. constructor. }
  destruct (taskManifest T) as [key|]; [|done].
  cbv beta iota delta [mbind option_bind].
  pose proof (checkFileDeps_loop_probes (fd :: fds) (m !!! key) fs) as Hp.
  destruct (Task.checkFileDeps_loop (fd :: fds) (m !!! key) fs) as [[b0 tm'] es'].
  simpl in Hp. by intros [= <- <- <-].
Qed.

Lemma actualUpToDate_probes t T m fs b m' es :
  Task.actualUpToDate t T m fs = Some (b, m', es) → Forall is_probe es.
Proof.
  unfold Task.actualUpToDate.
  destruct (Task.checkFileDeps T m fs) as [[[b1 m1] es1]|] eqn:Hc; [|done]. simpl.
  apply checkFileDeps_probes in Hc.
  assert (H2 : Forall is_probe (Task.and_then b1 (Task.targetsExist T) fs).2).
  { unfold Task.and_then. destruct b1; [apply targetsExist_probes|constructor]. }
  destruct (Task.and_then b1 (Task.targetsExist T) fs) as [b2 es2].
  assert (H3 : Forall is_probe (Task.and_then b2 (Task.call_uptodate t T) fs).2).
  { unfold Task.and_then. destruct b2; [apply call_uptodate_probes|constructor]. }
  destruct (Task.and_then b2 (Task.call_uptodate t T) fs) as [b3 es3].
  intros [= <- <- <-]. simpl in *.
  repeat first [ done | apply Forall_app; split | apply Forall_cons; split | apply Forall_nil ].
Qed.

Lemma action_calls_app t es1 es2 :
  action_calls t (es1 ++ es2) = action_calls t es1 + action_calls t es2.
Proof. unfold action_calls. by rewrite filter_app, length_app. Qed.

Lemma action_calls_probes t es : Forall is_probe es → action_calls t es = 0.
Proof.
  unfold action_calls. induction 1 as [|e es He _ IH]; [done|].
  rewrite filter_cons. destruct (decide (e = EvActionCall t)) as [->|]; [done|].
  exact IH.
Qed.

(** ** The invariant of the calls *)

Lemma action_calls_other (t u : nat) : u ≠ t → action_calls u [EvActionCall t] = 0.
Proof.
  intros Hne. unfold action_calls. rewrite filter_cons.
  rewrite decide_False by congruence. done.
Qed.

Lemma action_calls_self (t : nat) : action_calls t [EvActionCall t] = 1.
Proof. unfold action_calls. rewrite filter_cons. by rewrite decide_True. Qed.

Lemma action_calls_cons_quiet (t : nat) (e : Event) (es : list Event) :
  e ≠ EvActionCall t → action_calls t (e :: es) = action_calls t es.
Proof.
  intros He. unfold action_calls. rewrite filter_cons. by rewrite decide_False.
Qed.

Lemma action_calls_cons_self (t : nat) (es : list Event) :
  action_calls t (EvActionCall t :: es) = S (action_calls t es).
Proof. unfold action_calls. rewrite filter_cons. by rewrite decide_True. Qed.

Ltac count_calls :=
  repeat first
    [ rewrite action_calls_app
    | rewrite action_calls_cons_self
    | rewrite action_calls_cons_quiet by congruence
    | match goal with
      | H : Forall _ ?es |- context [action_calls ?t ?es] =>
          rewrite (action_calls_probes t es H)
      end ];
  change (action_calls _ []) with 0.

Lemma forallb_resolved (σ : State) (ps : list Promise) :
  forallb (resolved σ) ps = true →
  ∀ b, OfCall b ∈ ps → phase <$> calls σ !! b = Some Returned.
Proof.
  intros Hall b Hin. rewrite forallb_forall in Hall.
  apply list_elem_of_In in Hin. specialize (Hall _ Hin).
  simpl in Hall. by apply bool_decide_eq_true in Hall.
Qed.

Lemma grows_refl (σ σ' : State) :
  doneTasks σ' = doneTasks σ → inprogressTasks σ' = inprogressTasks σ → grows σ σ'.
Proof. intros Hd Hi. unfold grows. by rewrite Hd, Hi. Qed.

Lemma grows_finish (σ σ' : State) (t : nat) :
  doneTasks σ' = {[t]} ∪ doneTasks σ →
  inprogressTasks σ' = inprogressTasks σ ∖ {[t]} →
  grows σ σ'.
Proof.
  intros Hd Hi. unfold grows. rewrite Hd, Hi. clear. split.
  - apply union_subseteq_r.
  - intros x Hx. destruct (decide (x = t)) as [->|Hne].
    + apply elem_of_union_l, elem_of_union_l. by apply elem_of_singleton.
    + apply elem_of_union in Hx as [Hx|Hx].
      * by apply elem_of_union_l, elem_of_union_r.
      * apply elem_of_union_r, elem_of_difference. split; [done|].
        by rewrite elem_of_singleton.
Qed.

Lemma grows_trans (σ1 σ2 σ3 : State) : grows σ1 σ2 → grows σ2 σ3 → grows σ1 σ3.
Proof. unfold grows. intros [? ?] [? ?]. split; etrans; eauto. Qed.

(** The phase conditions of a call depend on the state through its own
    task, its promises and the calls it awaits. *)
Lemma phase_ok_frame (σ σ' : State) (a t : nat) (ph : Phase) :
  (t ∈ doneTasks σ' ↔ t ∈ doneTasks σ) →
  (t ∈ inprogressTasks σ' ↔ t ∈ inprogressTasks σ) →
  action_calls t (trace σ') = action_calls t (trace σ) →
  promises σ' !!! a = promises σ !!! a →
  heap σ' !! t = heap σ !! t →
  (∀ b, phase <$> calls σ !! b = Some Returned →
        phase <$> calls σ' !! b = Some Returned) →
  (∀ b d, callee <$> calls σ !! b = Some d → callee <$> calls σ' !! b = Some d) →
  phase_ok σ a t ph → phase_ok σ' a t ph.
Proof.
  intros Hd Hi Ha Hp Hh Hr Hc.
  assert (Haw : awaited_done σ a → awaited_done σ' a).
  { intros Haw b Hb. rewrite Hp in Hb. by apply Hr, Haw. }
  assert (Hpd : promised_deps σ a t → promised_deps σ' a t).
  { intros Hpd b Hb. rewrite Hp in Hb. destruct (Hpd b Hb) as (T & d & HT & Hcd & Hin).
    exists T, d. rewrite Hh. split; [done|]. split; [by apply Hc|done]. }
  unfold phase_ok. rewrite Ha. destruct ph; naive_solver.
Qed.

Lemma callee_lookup (σ : State) (a t : nat) :
  callee <$> calls σ !! a = Some t ↔ ∃ ph, calls σ !! a = Some (mkCall t ph).
Proof.
  rewrite fmap_Some. split.
  - intros ([d ph] & Hc & ->). by exists ph.
  - intros (ph & Hc). by exists (mkCall t ph).
Qed.

Lemma phase_lookup (σ : State) (a : nat) (ph : Phase) :
  phase <$> calls σ !! a = Some ph ↔ ∃ t, calls σ !! a = Some (mkCall t ph).
Proof.
  rewrite fmap_Some. split.
  - intros ([d ph'] & Hc & ->). by exists d.
  - intros (t & Hc). by exists (mkCall t ph).
Qed.

Lemma Inv_call (σ : State) (a t : nat) (ph : Phase) :
  Inv σ → calls σ !! a = Some (mkCall t ph) → phase_ok σ a t ph.
Proof.
  intros (Hcalls & _ & _) Ha. specialize (Hcalls a). unfold call_ok in Hcalls.
  by rewrite Ha in Hcalls.
Qed.

Lemma Inv_marked (σ : State) (a t : nat) :
  Inv σ → callee <$> calls σ !! a = Some t → t ∈ doneTasks σ ∨ t ∈ inprogressTasks σ.
Proof.
  intros HI Ha. apply callee_lookup in Ha as [ph Ha].
  pose proof (Inv_call σ a t ph HI Ha) as Hok.
  destruct ph; unfold phase_ok in Hok; tauto.
Qed.

(** A task that no call has marked has no call, and its action was not
    called. *)
Lemma Inv_unmarked (σ : State) (t : nat) :
  Inv σ → t ∉ doneTasks σ → t ∉ inprogressTasks σ →
  (∀ a, callee <$> calls σ !! a ≠ Some t) ∧ action_calls t (trace σ) = 0.
Proof.
  intros HI Hd Hi.
  assert (Hno : ∀ a, callee <$> calls σ !! a ≠ Some t).
  { intros a Ha. destruct (Inv_marked σ a t HI Ha); done. }
  split; [done|]. destruct HI as (_ & Htask & _).
  destruct (action_calls t (trace σ)) as [|n] eqn:Hac; [done|].
  destruct (Htask t) as [a Ha]; [right; right; lia|]. by destruct (Hno a).
Qed.

(** The call [a] on the task [t] goes from one phase to another; nothing
    else changes but the marks and the action count of [t]. *)
Lemma Inv_update (σ σ' : State) (a t : nat) (ph ph' : Phase) :
  Inv σ → calls σ !! a = Some (mkCall t ph) → ph ≠ Returned →
  calls σ' = <[a := mkCall t ph']> (calls σ) →
  (∀ b, b ≠ a → promises σ' !!! b = promises σ !!! b) →
  heap σ' = heap σ →
  (∀ u, u ≠ t →
        (u ∈ doneTasks σ' ↔ u ∈ doneTasks σ) ∧
        (u ∈ inprogressTasks σ' ↔ u ∈ inprogressTasks σ) ∧
        action_calls u (trace σ') = action_calls u (trace σ)) →
  phase_ok σ' a t ph' →
  Inv σ'.
Proof.
  intros HI Ha Hph Hc' Hp' Hh' Hoth Hnew.
  assert (Hce : ∀ b d, callee <$> calls σ' !! b = Some d ↔ callee <$> calls σ !! b = Some d).
  { intros b d. rewrite Hc'. destruct (decide (b = a)) as [->|Hne].
    - rewrite lookup_insert_eq, Ha. done.
    - by rewrite lookup_insert_ne. }
  assert (Hret : ∀ b, phase <$> calls σ !! b = Some Returned →
                      phase <$> calls σ' !! b = Some Returned).
  { intros b Hb. rewrite Hc'. rewrite lookup_insert_ne; [done|].
    intros <-. rewrite Ha in Hb. simpl in Hb. congruence. }
  pose proof HI as (Hcalls & Htask & Hone).
  split; [|split].
  - intros b. unfold call_ok. destruct (decide (b = a)) as [->|Hne].
    + by rewrite Hc', lookup_insert_eq.
    + rewrite Hc', lookup_insert_ne by done.
      destruct (calls σ !! b) as [[u phb]|] eqn:Hb; [|done]. simpl.
      assert (u ≠ t).
      { intros ->. apply Hne. apply (Hone b a t); [by rewrite Hb|by rewrite Ha]. }
      destruct (Hoth u) as (Hd & Hi & Hac); [done|].
      apply (phase_ok_frame σ); try done.
      * by apply Hp'.
      * by rewrite Hh'.
      * intros c d. by rewrite Hce.
      * by apply (Inv_call σ).
  - intros u Hu. destruct (decide (u = t)) as [->|Hne].
    + exists a. by rewrite Hc', lookup_insert_eq.
    + destruct (Hoth u Hne) as (Hd & Hi & Hac).
      destruct (Htask u) as [b Hb]; [by rewrite <- Hd, <- Hi, <- Hac|].
      exists b. by rewrite Hce.
  - intros b c u. rewrite !Hce. apply Hone.
Qed.

(** Nothing changes but the trace, by events that call no action, the
    manifest, the file system and the entry point. *)
Lemma Inv_same (σ σ' : State) :
  Inv σ →
  calls σ' = calls σ → promises σ' = promises σ →
  heap σ' = heap σ → doneTasks σ' = doneTasks σ →
  inprogressTasks σ' = inprogressTasks σ →
  (∀ u, action_calls u (trace σ') = action_calls u (trace σ)) →
  Inv σ'.
Proof.
  intros (Hcalls & Htask & Hone) Hc Hp Hh Hd Hi Hac. split; [|split].
  - intros b. specialize (Hcalls b). unfold call_ok in *. rewrite Hc.
    destruct (calls σ !! b) as [[u phb]|]; [|done]. simpl in *.
    apply (phase_ok_frame σ); try done; try (by rewrite ?Hd, ?Hi, ?Hp, ?Hh).
    + intros c. by rewrite Hc.
    + intros c d. by rewrite Hc.
  - intros u. unfold task_called. rewrite Hc, Hd, Hi, Hac. apply Htask.
  - intros b c u. rewrite Hc. apply Hone.
Qed.

Lemma awaited_other (σ : State) (a t : nat) (ph : Phase) (ps : list Promise) (c : Call) :
  calls σ !! a = Some (mkCall t ph) → ph ≠ Returned →
  (∀ b, OfCall b ∈ ps → phase <$> calls σ !! b = Some Returned) →
  ∀ b, OfCall b ∈ ps → phase <$> <[a := c]> (calls σ) !! b = Some Returned.
Proof.
  intros Ha Hph Haw b Hb. specialize (Haw b Hb).
  rewrite lookup_insert_ne; [done|]. intros <-. rewrite Ha in Haw. simpl in Haw.
  congruence.
Qed.

Lemma promised_deps_update (σ σ' : State) (a t u : nat) (ph ph' : Phase) :
  calls σ !! a = Some (mkCall t ph) →
  calls σ' = <[a := mkCall t ph']> (calls σ) →
  promises σ' = promises σ → heap σ' = heap σ →
  promised_deps σ a u → promised_deps σ' a u.
Proof.
  intros Ha Hc Hp Hh Hpd b Hb. rewrite Hp in Hb.
  destruct (Hpd b Hb) as (T & d & HT & Hcd & Hin). exists T, d. rewrite Hh.
  split; [done|]. split; [|done]. rewrite Hc.
  destruct (decide (b = a)) as [->|Hne].
  - rewrite lookup_insert_eq. rewrite Ha in Hcd. done.
  - by rewrite lookup_insert_ne.
Qed.

Lemma exec_checks_inv (a t : nat) (σ σ' : State) :
  Inv σ → calls σ !! a = Some (mkCall t AwaitDeps) →
  forallb (resolved σ) (promises σ !!! a) = true →
  Task.exec_checks a t σ = Some σ' →
  Inv σ' ∧ grows σ σ'.
Proof.
  intros HI Hph Hres Hex. unfold Task.exec_checks in Hex.
  destruct (heap σ !! t) as [T|]; [|done]. simpl in Hex.
  destruct (Task.actualUpToDate t T (manifest σ) (fsys σ)) as [[[b m'] es]|] eqn:Hup;
    [|done]. simpl in Hex.
  apply actualUpToDate_probes in Hup.
  destruct (Inv_call σ a t _ HI Hph) as (Hnd & Hin & Hac & Hpd).
  pose proof (forallb_resolved _ _ Hres) as Haw.
  destruct b; injection Hex as <-.
  - split; [|by apply (grows_finish _ _ t)].
    apply (Inv_update σ _ a t AwaitDeps Returned); try done.
    + intros u Hne. simpl. split; [set_solver|]. split; [set_solver|].
      count_calls. lia.
    + simpl. split; [set_solver|]. split; [set_solver|]. split.
      { count_calls. lia. }
      split.
      * intros b Hb. by apply (awaited_other σ a t AwaitDeps (promises σ !!! a)).
      * by apply (promised_deps_update σ _ a t t AwaitDeps Returned).
  - split; [|by apply grows_refl].
    apply (Inv_update σ _ a t AwaitDeps AwaitAction); try done.
    + intros u Hne. simpl. split; [done|]. split; [done|]. count_calls. lia.
    + simpl. split; [done|]. split; [done|]. split.
      { count_calls. lia. }
      split.
      * intros b Hb. by apply (awaited_other σ a t AwaitDeps (promises σ !!! a)).
      * by apply (promised_deps_update σ _ a t t AwaitDeps AwaitAction).
Qed.

Lemma exec_after_action_inv (a t : nat) (σ σ' : State) :
  Inv σ → calls σ !! a = Some (mkCall t AwaitAction) →
  Task.exec_after_action a t σ = Some σ' →
  Inv σ' ∧ grows σ σ'.
Proof.
  intros HI Hph Hex. unfold Task.exec_after_action in Hex.
  destruct (heap σ !! t) as [T|]; [|done]. simpl in Hex. injection Hex as <-.
  destruct (Inv_call σ a t _ HI Hph) as (Hnd & Hin & Hac & Haw & Hpd).
  split; [|by apply (grows_finish _ _ t)].
  apply (Inv_update σ _ a t AwaitAction Returned); try done.
  - intros u Hne. simpl. split; [set_solver|]. split; [set_solver|].
    count_calls. lia.
  - simpl. split; [set_solver|]. split; [set_solver|]. split.
    { count_calls. lia. }
    split.
    + intros b Hb. by apply (awaited_other σ a t AwaitAction (promises σ !!! a)).
    + by apply (promised_deps_update σ _ a t t AwaitAction Returned).
Qed.

Lemma settle_inv (i : nat) (σ σ' : State) :
  Inv σ → Task.settle i σ = Some σ' → Inv σ' ∧ grows σ σ'.
Proof.
  intros HI Hex. unfold Task.settle in Hex.
  destruct (detached σ !! i) as [[t fd]|]; [|done]. simpl in Hex.
  destruct (heap σ !! t) as [T|]; [|done]. simpl in Hex.
  pose proof (getFileData_probes fd (fsys σ)) as Hp.
  destruct (TrackedFile.getFileData fd (fsys σ)) as [x es]. simpl in Hp.
  injection Hex as <-.
  split; [|by apply grows_refl].
  apply (Inv_same σ); try done. intros u. simpl. count_calls. lia.
Qed.

Lemma step_inv (c : Choice) (σ σ' : State) :
  Inv σ → step c σ = Some σ' → Inv σ' ∧ grows σ σ'.
Proof.
  intros HI Hs. destruct c as [a|i|]; simpl in Hs.
  - destruct (calls σ !! a) as [[t ph]|] eqn:Hca; [|done]. simpl in Hs.
    destruct ph; try done.
    + destruct (forallb (resolved σ) (promises σ !!! a)) eqn:Hres; [|done].
      by apply (exec_checks_inv a t).
    + by apply (exec_after_action_inv a t).
  - by apply (settle_inv i).
  - destruct (main σ) as [| |p|]; try done.
    destruct (resolved σ p); [|done]. injection Hs as <-.
    split; [|by apply grows_refl].
    apply (Inv_same σ); try done. intros u. simpl. count_calls. lia.
Qed.

Lemma reachable_inv (σ0 σ : State) :
  Inv σ0 → reachable σ0 σ → Inv σ ∧ grows σ0 σ.
Proof.
  intros HI Hr. induction Hr as [σ|σ1 σ2 σ3 [c Hs] _ IH].
  - split; [done|]. by apply grows_refl.
  - destruct (step_inv c _ _ HI Hs) as [HI2 Hg].
    destruct (IH HI2) as [HI3 Hg']. split; [done|]. by eapply grows_trans.
Qed.

(** ** [Task.exec] up to its first suspension *)

Lemma kept_refl (σ : State) : kept σ σ.
Proof. unfold kept. naive_solver. Qed.

Lemma kept_trans (σ1 σ2 σ3 : State) : kept σ1 σ2 → kept σ2 σ3 → kept σ1 σ3.
Proof.
  intros (Ht & Hd & Hi & Hc & Hp) (Ht' & Hd' & Hi' & Hc' & Hp').
  split; [congruence|]. split; [congruence|]. split; [by etrans|]. split.
  - intros a c Ha. destruct (Hc a c Ha) as [Ha2 Hh2].
    destruct (Hc' a c Ha2) as [Ha3 Hh3]. split; [done|]. congruence.
  - intros a [c Ha]. destruct (Hc a c Ha) as [Ha2 _].
    rewrite Hp' by eauto. apply Hp. eauto.
Qed.

Lemma kept_callee (σ σ' : State) (b d : nat) :
  kept σ σ' → callee <$> calls σ !! b = Some d → callee <$> calls σ' !! b = Some d.
Proof.
  intros (_ & _ & _ & Hc & _) Hb. apply fmap_Some in Hb as (c & Hb & ->).
  destruct (Hc b c Hb) as [-> _]. done.
Qed.

Lemma execDependencies_inv (exec : nat → State → option (Promise * State)) :
  (∀ t σ p σ', exec t σ = Some (p, σ') →
               Inv σ → Inv σ' ∧ kept σ σ' ∧ promise_of σ' p t) →
  ∀ deps ps σ r,
    Task.execDependencies exec deps ps σ = Some r →
    Inv σ →
    Inv r.2 ∧ kept σ r.2 ∧
    ∀ b, OfCall b ∈ r.1 →
         OfCall b ∈ ps ∨ ∃ d, d ∈ deps ∧ callee <$> calls r.2 !! b = Some d.
Proof.
  intros Hexec deps. induction deps as [|dep deps IH]; intros ps σ r Hr HI; simpl in Hr.
  - injection Hr as <-. split; [done|]. split; [apply kept_refl|]. by left.
  - destruct (negb (Task.has (doneTasks σ) dep) && negb (Task.has (inprogressTasks σ) dep)).
    + destruct (exec dep σ) as [[p σ1]|] eqn:He; [|done]. simpl in Hr.
      destruct (Hexec _ _ _ _ He HI) as (HI1 & Hk1 & Hp1).
      destruct (IH _ _ _ Hr HI1) as (HI2 & Hk2 & Hps).
      split; [done|]. split; [by eapply kept_trans|].
      intros b Hb. destruct (Hps b Hb) as [Hin|(d & Hd & Hcd)].
      * apply elem_of_app in Hin as [?|Hin]; [by left|].
        apply list_elem_of_singleton in Hin as <-. right. exists dep.
        split; [apply list_elem_of_here|]. by apply (kept_callee σ1).
      * right. exists d. split; [by apply list_elem_of_further|done].
    + destruct (IH _ _ _ Hr HI) as (HI2 & Hk2 & Hps).
      split; [done|]. split; [done|].
      intros b Hb. destruct (Hps b Hb) as [?|(d & Hd & Hcd)]; [by left|].
      right. exists d. split; [by apply list_elem_of_further|done].
Qed.

(** The guards let a call through only on a task that no call has
    marked; the new call marks it, so that it is the one call on it. *)
Lemma mark_inv (σ : State) (t : nat) (T' : Task) :
  Inv σ → t ∉ doneTasks σ → t ∉ inprogressTasks σ →
  let a := fresh (dom (calls σ)) in
  let σ2 := set_heap <[t := T']>
              (set_calls <[a := mkCall t Running]>
                 (set_inprogressTasks (λ s, {[t]} ∪ s) σ)) in
  calls σ !! a = None ∧ Inv σ2 ∧ kept σ σ2.
Proof.
  intros HI Hd Hi a σ2.
  assert (Hfresh : calls σ !! a = None).
  { apply not_elem_of_dom. apply is_fresh. }
  destruct (Inv_unmarked σ t HI Hd Hi) as [Hno Hac].
  assert (Hne : ∀ b c, calls σ !! b = Some c → b ≠ a ∧ callee c ≠ t).
  { intros b c Hb. split; [congruence|]. intros Hct. apply (Hno b).
    by rewrite Hb, <- Hct. }
  pose proof HI as (Hcalls & Htask & Hone).
  split; [done|]. split; [split; [|split]|].
  - intros b. unfold call_ok. simpl. destruct (decide (b = a)) as [->|Hba].
    + rewrite lookup_insert_eq. simpl. split; [done|]. split; [set_solver|done].
    + rewrite lookup_insert_ne by done.
      destruct (calls σ !! b) as [[u phb]|] eqn:Hb; [|done]. simpl.
      destruct (Hne b _ Hb) as [_ Hut]. simpl in Hut.
      apply (phase_ok_frame σ); simpl; try done.
      * set_solver.
      * by rewrite lookup_insert_ne.
      * intros c Hc. rewrite lookup_insert_ne; [done|]. intros <-.
        by rewrite Hfresh in Hc.
      * intros c d Hc. rewrite lookup_insert_ne; [done|]. intros <-.
        by rewrite Hfresh in Hc.
      * by apply (Inv_call σ).
  - intros u Hu. simpl in *. destruct (decide (u = t)) as [->|Hut].
    + exists a. by rewrite lookup_insert_eq.
    + destruct (Htask u) as [b Hb]; [set_solver|].
      exists b. rewrite lookup_insert_ne; [done|]. intros <-.
      by rewrite Hfresh in Hb.
  - intros b c u Hb Hc. simpl in *.
    destruct (decide (b = a)) as [->|Hba]; destruct (decide (c = a)) as [->|Hca];
      try done.
    + rewrite lookup_insert_eq in Hb. rewrite lookup_insert_ne in Hc by done.
      injection Hb as <-. by destruct (Hno c).
    + rewrite lookup_insert_eq in Hc. rewrite lookup_insert_ne in Hb by done.
      injection Hc as <-. by destruct (Hno b).
    + rewrite lookup_insert_ne in Hb, Hc by done. by apply (Hone b c u).
  - split; [done|]. split; [done|]. split; [simpl; set_solver|]. split; [|done].
    intros b c Hb. destruct (Hne b c Hb) as [Hba Hct]. simpl.
    by rewrite !lookup_insert_ne.
Qed.

Lemma exec_enter_inv (fuel : nat) :
  ∀ t σ p σ', Task.exec_enter fuel t σ = Some (p, σ') →
              Inv σ → Inv σ' ∧ kept σ σ' ∧ promise_of σ' p t.
Proof.
  induction fuel as [|fuel IH]; intros t σ p σ' He HI; [done|]. simpl in He.
  unfold Task.has in He.
  destruct (bool_decide (t ∈ doneTasks σ)) eqn:Hd.
  { injection He as <- <-. split; [done|]. split; [apply kept_refl|done]. }
  destruct (bool_decide (t ∈ inprogressTasks σ)) eqn:Hi.
  { injection He as <- <-. split; [done|]. split; [apply kept_refl|done]. }
  apply bool_decide_eq_false in Hd, Hi.
  destruct (heap σ !! t) as [T|]; [|done]. simpl in He.
  set (T' := Task.add_target_deps _ T) in He.
  destruct (mark_inv σ t T' HI Hd Hi) as (Hfresh & HI2 & Hk2).
  set (a := fresh (dom (calls σ))) in *.
  set (σ2 := set_heap _ _) in *.
  destruct (Task.execDependencies _ _ _ σ2) as [[ps σ3]|] eqn:Hloop; [|done].
  simpl in He. injection He as <- <-.
  destruct (execDependencies_inv _ IH _ _ _ _ Hloop HI2) as (HI3 & Hk3 & Hps).
  simpl in *.
  assert (Hrun : calls σ3 !! a = Some (mkCall t Running) ∧ heap σ3 !! t = Some T').
  { destruct Hk3 as (_ & _ & _ & Hc3 & _).
    destruct (Hc3 a (mkCall t Running)) as [-> Hh].
    - simpl. by rewrite lookup_insert_eq.
    - split; [done|]. simpl in Hh. rewrite Hh. simpl. by rewrite lookup_insert_eq. }
  destruct Hrun as [Hrun Hobj].
  destruct (Inv_call σ3 a t _ HI3 Hrun) as (Hnd3 & Hin3 & Hac3).
  split; [|split].
  - apply (Inv_update σ3 _ a t Running AwaitDeps); simpl; try done.
    + intros b Hba. unfold lookup_total, map_lookup_total.
      by rewrite lookup_insert_ne.
    + split; [done|]. split; [done|]. split; [done|].
      intros b Hb. simpl in Hb.
      unfold lookup_total, map_lookup_total in Hb. rewrite lookup_insert_eq in Hb.
      simpl in Hb. exists T'. destruct (Hps b Hb) as [Hnil|(d & Hd3 & Hcd)].
      { by apply elem_of_nil in Hnil. }
      exists d. simpl. split; [done|]. split; [|done].
      destruct (decide (b = a)) as [->|Hba].
      * rewrite lookup_insert_eq. rewrite Hrun in Hcd. done.
      * by rewrite lookup_insert_ne.
  - destruct (kept_trans _ _ _ Hk2 Hk3) as (Htr & Hdn & Hip & Hcl & Hpr).
    split; [done|]. split; [done|]. split; [done|]. split.
    + intros b c Hb. simpl. destruct (Hcl b c Hb) as [Hb3 Hh3].
      rewrite lookup_insert_ne; [done|]. intros <-. by rewrite Hfresh in Hb.
    + intros b [c Hb]. simpl.
      unfold lookup_total, map_lookup_total. rewrite lookup_insert_ne.
      * apply Hpr. eauto.
      * intros <-. by rewrite Hfresh in Hb.
  - simpl. by rewrite lookup_insert_eq.
Qed.

(** ** The invocation *)

Lemma setup_all_fields (reg : list (string * nat)) (σ σ' : State) :
  setup_all reg σ = Some σ' →
  trace σ' = trace σ ∧ calls σ' = calls σ ∧
  doneTasks σ' = doneTasks σ ∧ inprogressTasks σ' = inprogressTasks σ.
Proof.
  revert σ. induction reg as [|kv reg IH]; intros σ Hs; simpl in Hs.
  - by injection Hs as <-.
  - destruct (Task.setup kv.2 σ) as [σ1|] eqn:H1; [|done]. simpl in Hs.
    destruct (IH _ Hs) as (-> & -> & -> & ->).
    unfold Task.setup in H1. destruct (heap σ !! kv.2); [|done].
    simpl in H1. by injection H1 as <-.
Qed.

Lemma Inv_quiet (σ : State) :
  calls σ = ∅ → doneTasks σ = ∅ → inprogressTasks σ = ∅ →
  (∀ t, action_calls t (trace σ) = 0) → Inv σ.
Proof.
  intros Hc Hd Hi Ha. split; [|split].
  - intros a. unfold call_ok. by rewrite Hc, lookup_empty.
  - intros t Ht. rewrite Hd, Hi, Ha in Ht. set_solver by lia.
  - intros a b t Hb. by rewrite Hc, lookup_empty in Hb.
Qed.

Lemma exec_inv (taskName : string) (stored : Manifest) (σr σ0 : State) :
  fresh_process σr → exec taskName stored σr = Some σ0 → Inv σ0.
Proof.
  intros (Hd & Hi & Hc & Ht) He. unfold exec in He.
  destruct (decide (taskName = "list")).
  { injection He as <-. apply Inv_quiet; simpl; try done.
    intros t. rewrite Ht. simpl. by count_calls. }
  destruct (setup_all _ _) as [σ2|] eqn:Hs; [|done]. simpl in He.
  destruct (setup_all_fields _ _ _ Hs) as (Ht2 & Hc2 & Hd2 & Hi2). simpl in *.
  assert (HI2 : Inv σ2).
  { apply Inv_quiet; try congruence.
    intros t. rewrite Ht2, Ht. simpl. by count_calls. }
  destruct (map_get taskName (taskRegister σ2)) as [t|].
  - destruct (Task.exec t σ2) as [[p σ3]|] eqn:H3; [|done]. simpl in He.
    injection He as <-.
    destruct (exec_enter_inv _ _ _ _ _ H3 HI2) as (HI3 & _ & _).
    by apply (Inv_same σ3).
  - injection He as <-. apply Inv_quiet; simpl; try congruence.
    intros t. rewrite Ht2, Ht. simpl. by count_calls.
Qed.

Lemma invocation_inv (taskName : string) (stored : Manifest) (σr σ : State) :
  invocation taskName stored σr σ → Inv σ.
Proof.
  intros (Hf & σ0 & He & Hr).
  by destruct (reachable_inv σ0 σ (exec_inv _ _ _ _ Hf He) Hr).
Qed.

Lemma invocation_step (taskName : string) (stored : Manifest) (σr σ σ' : State) :
  invocation taskName stored σr σ → reachable σ σ' → invocation taskName stored σr σ'.
Proof.
  intros (Hf & σ0 & He & Hr) Hr'. split; [done|]. exists σ0. split; [done|].
  unfold reachable in *. by etrans.
Qed.

Lemma run_reachable (cs : list Choice) (σ σ' : State) :
  run cs σ = Some σ' → reachable σ σ'.
Proof.
  revert σ. induction cs as [|c cs IH]; intros σ Hr; simpl in Hr.
  - injection Hr as <-. apply rtc_refl.
  - destruct (step c σ) as [σ1|] eqn:Hs; [|done]. simpl in Hr.
    eapply rtc_l; [by exists c|]. by apply IH.
Qed.

Lemma invocation_run (taskName : string) (stored : Manifest) (σr σ0 σ : State)
    (cs : list Choice) :
  fresh_process σr → exec taskName stored σr = Some σ0 → run cs σ0 = Some σ →
  invocation taskName stored σr σ.
Proof.
  intros Hf He Hr. split; [done|]. exists σ0. split; [done|].
  by apply (run_reachable cs).
Qed.

Lemma exec_guard (t : nat) (σ : State) :
  t ∈ doneTasks σ ∨ t ∈ inprogressTasks σ → Task.exec t σ = Some (Settled, σ).
Proof.
  intros Hm. unfold Task.exec. simpl. unfold Task.has.
  destruct (bool_decide (t ∈ doneTasks σ)) eqn:Hd; [done|].
  apply bool_decide_eq_false in Hd.
  destruct Hm as [?|Hi]; [done|]. by rewrite bool_decide_eq_true_2.
Qed.

(** C3. In every state of an invocation the action of a task has been
    called at most once. The guards of [exec] let one call through for
    each task object, whatever the number of its dependents: any two calls
    on the task [t] that got past the guards are the same call; and a call
    of [Task.exec] on a task that is done or in progress returns at the
    guards, with a promise that is settled and the state as it was. *)
Theorem action_at_most_once (taskName : string) (stored : Manifest) (σr σ : State)
    (t : nat) :
  invocation taskName stored σr σ →
  action_calls t (trace σ) ≤ 1 ∧
  (∀ a b, callee <$> calls σ !! a = Some t → callee <$> calls σ !! b = Some t → a = b) ∧
  (t ∈ doneTasks σ ∨ t ∈ inprogressTasks σ → Task.exec t σ = Some (Settled, σ)).
Proof.
  intros Hinv. pose proof (invocation_inv _ _ _ _ Hinv) as HI.
  split; [|split; [|apply exec_guard]].
  - destruct (decide (action_calls t (trace σ) = 0)) as [->|Hpos]; [lia|].
    pose proof HI as (_ & Htask & _).
    destruct (Htask t) as [a Ha]; [right; right; lia|].
    apply callee_lookup in Ha as [ph Ha].
    pose proof (Inv_call σ a t ph HI Ha) as Hok.
    destruct ph; unfold phase_ok in Hok; destruct_and!; lia.
  - destruct HI as (_ & _ & Hone). intros a b. apply Hone.
Qed.

Lemma action_at_most_once_witness :
  action_calls 0 (trace ExDiamond.s9) ≤ 1 ∧
  (∀ a b, callee <$> calls ExDiamond.s9 !! a = Some 0 →
          callee <$> calls ExDiamond.s9 !! b = Some 0 → a = b) ∧
  (0 ∈ doneTasks ExDiamond.s9 ∨ 0 ∈ inprogressTasks ExDiamond.s9 →
   Task.exec 0 ExDiamond.s9 = Some (Settled, ExDiamond.s9)).
Proof.
  apply (action_at_most_once "all" ∅ ExDiamond.sr ExDiamond.s9 0).
  apply (invocation_run _ _ _ ExDiamond.s0 _
           [Resume 2; Resume 2; Resume 1; Resume 1;
            Resume 3; Resume 3; Resume 0; Resume 0; Finish]);
    by vm_compute.
Defined.

(** C8. In every state of an invocation the done set and the in-progress
    set are disjoint; and from any state of the invocation to any later
    one, the done set and the union of the two sets only grow. *)
Theorem done_inprogress_sets (taskName : string) (stored : Manifest) (σr σ σ' : State) :
  invocation taskName stored σr σ →
  reachable σ σ' →
  doneTasks σ ## inprogressTasks σ ∧
  doneTasks σ ⊆ doneTasks σ' ∧
  doneTasks σ ∪ inprogressTasks σ ⊆ doneTasks σ' ∪ inprogressTasks σ'.
Proof.
  intros Hinv Hr. pose proof (invocation_inv _ _ _ _ Hinv) as HI. split.
  - intros t Hd Hi. pose proof HI as (_ & Htask & _).
    destruct (Htask t) as [a Ha]; [by left|].
    apply callee_lookup in Ha as [ph Ha].
    pose proof (Inv_call σ a t ph HI Ha) as Hok.
    destruct ph; unfold phase_ok in Hok; destruct_and!; done.
  - by destruct (reachable_inv σ σ' HI Hr) as [_ [? ?]].
Qed.

Lemma done_inprogress_sets_witness :
  doneTasks ExRun.s1 ## inprogressTasks ExRun.s1 ∧
  doneTasks ExRun.s1 ⊆ doneTasks ExRun.s2 ∧
  doneTasks ExRun.s1 ∪ inprogressTasks ExRun.s1
    ⊆ doneTasks ExRun.s2 ∪ inprogressTasks ExRun.s2.
Proof.
  apply (done_inprogress_sets "compile" ExCompile.stored ExRun.sr ExRun.s1 ExRun.s2).
  - split; [by vm_compute|]. exists ExCompile.s0. split; [by vm_compute|].
    apply (run_reachable [Resume 0]). by vm_compute.
  - apply (run_reachable [Resume 0]). by vm_compute.
Defined.

(** ** Dependencies and dependents *)

Lemma action_calls_elem (t : nat) (es : list Event) :
  EvActionCall t ∈ es → 0 < action_calls t es.
Proof.
  intros Hin. unfold action_calls.
  assert (Hf : EvActionCall t ∈ filter (λ e, e = EvActionCall t) es).
  { by apply list_elem_of_filter. }
  destruct (filter _ es); [by apply elem_of_nil in Hf|simpl; lia].
Qed.

(** A call that has returned stays returned, and no later step calls the
    action of its task: a step that does is a step of another call, and
    there is no other call on that task. *)
Lemma step_returned (c : Choice) (σ σ' : State) (b d : nat) :
  Inv σ → step c σ = Some σ' → calls σ !! b = Some (mkCall d Returned) →
  calls σ' !! b = Some (mkCall d Returned) ∧
  action_calls d (trace σ') = action_calls d (trace σ).
Proof.
  intros HI Hs Hb. destruct c as [a|i|]; simpl in Hs.
  - destruct (calls σ !! a) as [[t ph]|] eqn:Ha; [|done]. simpl in Hs.
    assert (Hne : ph ≠ Returned → b ≠ a ∧ d ≠ t).
    { intros Hph. assert (b ≠ a) by congruence. split; [done|].
      intros ->. destruct HI as (_ & _ & Hone).
      destruct (Hone b a t); [by rewrite Hb|by rewrite Ha|done]. }
    destruct ph; try done.
    + destruct (Hne ltac:(done)) as [Hba Hdt].
      destruct (forallb _ _); [|done]. unfold Task.exec_checks in Hs.
      destruct (heap σ !! t) as [T|]; [|done]. simpl in Hs.
      destruct (Task.actualUpToDate _ _ _ _) as [[[r m'] es]|] eqn:Hup; [|done].
      apply actualUpToDate_probes in Hup. simpl in Hs.
      destruct r; injection Hs as <-; simpl; rewrite lookup_insert_ne by done;
        (split; [done|]); count_calls; lia.
    + destruct (Hne ltac:(done)) as [Hba Hdt].
      unfold Task.exec_after_action in Hs.
      destruct (heap σ !! t) as [T|]; [|done]. simpl in Hs. injection Hs as <-.
      simpl. rewrite lookup_insert_ne by done. split; [done|]. count_calls. lia.
  - unfold Task.settle in Hs.
    destruct (detached σ !! i) as [[t fd]|]; [|done]. simpl in Hs.
    destruct (heap σ !! t) as [T|]; [|done]. simpl in Hs.
    pose proof (getFileData_probes fd (fsys σ)) as Hp.
    destruct (TrackedFile.getFileData fd (fsys σ)) as [x es]. simpl in Hp.
    injection Hs as <-. simpl. split; [done|]. count_calls. lia.
  - destruct (main σ) as [| |p|]; try done.
    destruct (resolved σ p); [|done]. injection Hs as <-.
    simpl. split; [done|]. count_calls. lia.
Qed.

Lemma reachable_returned (σ σ' : State) (b d : nat) :
  Inv σ → reachable σ σ' → calls σ !! b = Some (mkCall d Returned) →
  calls σ' !! b = Some (mkCall d Returned) ∧
  action_calls d (trace σ') = action_calls d (trace σ).
Proof.
  intros HI Hr. revert HI.
  induction Hr as [σ|σ1 σ2 σ3 [c Hs] _ IH]; intros HI Hd; [done|].
  destruct (step_returned c _ _ b d HI Hs Hd) as [Hd2 Ha2].
  destruct (step_inv c _ _ HI Hs) as [HI2 _].
  destruct (IH HI2 Hd2) as [Hd3 Ha3]. split; [done|]. congruence.
Qed.

(** C4, as the code has it. When the action of [T] has been called, every
    task [D] whose call of [exec] was made and awaited by [T]'s own
    [execDependencies] is a task dependency of [T], has returned and is in
    the done set; and the action of [D] is not called again in any later
    state. [A] is the call on [T], [B] the call on [D] whose promise is in
    [A]'s [promisesInProgress]. (A dependency found in progress by the
    loop is not in [promisesInProgress].) *)
Theorem awaited_dependencies_first (taskName : string) (stored : Manifest)
    (σr σ σ' : State) (T D A B : nat) :
  invocation taskName stored σr σ →
  EvActionCall T ∈ trace σ →
  callee <$> calls σ !! A = Some T →
  OfCall B ∈ promises σ !!! A →
  callee <$> calls σ !! B = Some D →
  reachable σ σ' →
  (∃ Tobj, heap σ !! T = Some Tobj ∧ D ∈ task_deps Tobj) ∧
  D ∈ doneTasks σ ∧
  phase <$> calls σ !! B = Some Returned ∧
  action_calls D (trace σ') = action_calls D (trace σ).
Proof.
  intros Hinv Hcall HA Hin HB Hr.
  pose proof (invocation_inv _ _ _ _ Hinv) as HI.
  apply action_calls_elem in Hcall.
  apply callee_lookup in HA as [phA HA].
  assert (Haw : awaited_done σ A ∧ promised_deps σ A T).
  { pose proof (Inv_call σ A T phA HI HA) as Hok.
    destruct phA; unfold phase_ok in Hok; destruct_and!; try lia; done. }
  destruct Haw as [Haw Hpd].
  pose proof (Haw B Hin) as Hret.
  destruct (Hpd B Hin) as (Tobj & d & HT & Hd & Hdep).
  assert (d = D) as -> by congruence.
  apply callee_lookup in HB as [phB HB].
  assert (phB = Returned) as ->.
  { rewrite HB in Hret. simpl in Hret. congruence. }
  split; [eauto|]. split.
  - by destruct (Inv_call σ B D Returned HI HB).
  - split; [done|]. by apply (reachable_returned σ σ' B D HI Hr).
Qed.

Lemma awaited_dependencies_first_witness :
  (∃ Tobj, heap ExDiamond.s4 !! 1 = Some Tobj ∧ 0 ∈ task_deps Tobj) ∧
  0 ∈ doneTasks ExDiamond.s4 ∧
  phase <$> calls ExDiamond.s4 !! 2 = Some Returned ∧
  action_calls 0 (trace ExDiamond.s5) = action_calls 0 (trace ExDiamond.s4).
Proof.
  apply (awaited_dependencies_first "all" ∅ ExDiamond.sr ExDiamond.s4 ExDiamond.s5
           1 0 1 2).
  - apply (invocation_run _ _ _ ExDiamond.s0 _ [Resume 2; Resume 2; Resume 1]);
      by vm_compute.
  - apply (bool_decide_unpack _). by vm_compute.
  - by vm_compute.
  - apply (bool_decide_unpack _). by vm_compute.
  - by vm_compute.
  - apply (run_reachable [Resume 1]). by vm_compute.
Defined.

(** In the diamond, [use] calls its action while [gen], its dependency
    and the maker of [/gen.txt], has called its own and not returned. *)
Lemma diamond_not_dependency_first :
  ¬ (∀ σ, invocation "all" ∅ ExDiamond.sr σ → dependency_first σ).
Proof.
  intros Hall.
  assert (Hinv : invocation "all" ∅ ExDiamond.sr ExDiamond.s2).
  { apply (invocation_run _ _ _ ExDiamond.s0 _ [Resume 2; Resume 3]); by vm_compute. }
  specialize (Hall _ Hinv).
  assert (Hnot : 0 ∉ doneTasks ExDiamond.s2).
  { apply (bool_decide_unpack _). by vm_compute. }
  apply Hnot.
  eapply (Hall 2 0 _ _ "/gen.txt").
  - vm_compute. reflexivity.
  - vm_compute. reflexivity.
  - vm_compute. apply list_elem_of_here.
  - vm_compute. apply list_elem_of_here.
  - vm_compute. apply list_elem_of_here.
  - apply (bool_decide_unpack _). by vm_compute.
Qed.

(** What [use] found when it probed [/gen.txt], and what [gen] left there
    when its action returned afterwards. *)
Example diamond_stale_read :
  fsys ExDiamond.s2 !! "/gen.txt" = None ∧
  EvActionCall 2 ∈ trace ExDiamond.s2 ∧
  (EvActionReturn 0 ∉ trace ExDiamond.s2) ∧
  fsys ExDiamond.s3 !! "/gen.txt" = Some (mkEntry (Some "t5") "new").
Proof.
  split; [by vm_compute|]. split; [|split; [|by vm_compute]].
  - apply (bool_decide_unpack _). by vm_compute.
  - apply (bool_decide_unpack _). by vm_compute.
Qed.
(** ** The snapshots after the action *)

Lemma exec_after_action_manifest (a t : nat) (σ σ' : State) (T : Task) :
  heap σ !! t = Some T →
  Task.exec_after_action a t σ = Some σ' →
  manifest σ' = manifest σ ∧
  t ∈ doneTasks σ' ∧
  detached σ' = detached σ ++ ((λ fd, (t, fd)) <$> file_deps T).
Proof.
  intros Ht He. unfold Task.exec_after_action in He. rewrite Ht in He.
  simpl in He. injection He as <-. simpl.
  split; [done|]. split; [set_solver|done].
Qed.

(** C1, on the code. [fmt] depends on [/src.txt] and rewrites it. When
    the task is in the done set, the snapshot of after the action is not
    in the cache entry: the entry holds what the check before the action
    wrote, and the recomputation is still pending. The entry point can
    then save the manifest in this state; only a later step writes the
    fresh snapshot. *)
Theorem post_action_snapshot_not_awaited :
  0 ∈ doneTasks ExFmt.s2 ∧
  (TrackedFile.getFileData Ex.src (fsys ExFmt.s2)).1 = mkData "A" "t2" ∧
  manifest ExFmt.s2 !! "fmt" = Some {[ "/src.txt" := mkData "a" "t1" ]} ∧
  length (detached ExFmt.s2) = 1 ∧
  main ExFmt.s3 = Saved ∧
  last (trace ExFmt.s3) = Some EvSave ∧
  manifest ExFmt.s3 !! "fmt" = Some {[ "/src.txt" := mkData "a" "t1" ]} ∧
  (manifest <$> run [Settle 0] ExFmt.s3) ≫= (.!! "fmt")
    = Some {[ "/src.txt" := mkData "A" "t2" ]}.
Proof.
  split; [apply (bool_decide_unpack _); by vm_compute|].
  repeat split; by vm_compute.
Qed.

(** ** [Task.exec] reaches its first suspension *)

Lemma elem_of_set_add (d x : nat) (s : list nat) :
  d ∈ set_add x s ↔ d = x ∨ d ∈ s.
Proof.
  unfold set_add. destruct (decide (x ∈ s)) as [Hin|Hnin].
  - split; [by right|]. intros [->|?]; done.
  - rewrite elem_of_app, list_elem_of_singleton. tauto.
Qed.

Lemma add_target_deps_sub (reg : gmap string nat) (T : Task) (d : nat) :
  d ∈ task_deps (Task.add_target_deps reg T) →
  d ∈ task_deps T ∨ ∃ p, reg !! p = Some d.
Proof.
  unfold Task.add_target_deps. generalize (file_deps T) as fds.
  intros fds. revert T. induction fds as [|fd fds IH]; intros T Hd; simpl in Hd.
  - by left.
  - apply IH in Hd as [Hd|?]; [|by right].
    destruct (reg !! path fd) as [t|] eqn:Hreg; [|by left].
    simpl in Hd. apply elem_of_set_add in Hd as [->|?]; [right; eauto|by left].
Qed.

Lemma entered_refl (σ : State) : closed σ → entered σ σ.
Proof. intros Hc. unfold entered. naive_solver. Qed.

Lemma entered_trans (σ1 σ2 σ3 : State) : entered σ1 σ2 → entered σ2 σ3 → entered σ1 σ3.
Proof.
  intros (Hh & Hr & Hc & Hd & Hi) (Hh' & Hr' & Hc' & Hd' & Hi').
  split; [congruence|]. split; [congruence|]. split; [done|].
  split; by etrans.
Qed.

Lemma entered_unmarked (σ σ' : State) : entered σ σ' → size (unmarked σ') ≤ size (unmarked σ).
Proof.
  intros (Hh & _ & _ & Hd & Hi). apply subseteq_size. unfold unmarked. rewrite Hh.
  set_solver.
Qed.

Lemma execDependencies_total (exec : nat → State → option (Promise * State)) (n : nat) :
  (∀ t σ, closed σ → t ∈ dom (heap σ) → size (unmarked σ) < n →
          ∃ r, exec t σ = Some r ∧ entered σ r.2) →
  ∀ deps ps σ,
    closed σ → (∀ d, d ∈ deps → d ∈ dom (heap σ)) → size (unmarked σ) < n →
    ∃ r, Task.execDependencies exec deps ps σ = Some r ∧ entered σ r.2.
Proof.
  intros Hexec deps. induction deps as [|dep deps IH]; intros ps σ Hc Hin Hn; simpl.
  - eexists. split; [done|]. by apply entered_refl.
  - destruct (negb (Task.has (doneTasks σ) dep) && negb (Task.has (inprogressTasks σ) dep)).
    + destruct (Hexec dep σ Hc) as ([p σ1] & -> & He); [apply Hin, list_elem_of_here|done|].
      simpl in *. pose proof He as (Hh & _ & Hc1 & _).
      destruct (IH (ps ++ [p]) σ1 Hc1) as (r & Hr & He').
      * intros d Hd. rewrite Hh. by apply Hin, list_elem_of_further.
      * pose proof (entered_unmarked _ _ He). lia.
      * exists r. split; [done|]. by eapply entered_trans.
    + apply IH; [done| |done]. intros d Hd. by apply Hin, list_elem_of_further.
Qed.

Lemma exec_enter_total (fuel : nat) :
  ∀ t σ, closed σ → t ∈ dom (heap σ) → size (unmarked σ) < fuel →
         ∃ r, Task.exec_enter fuel t σ = Some r ∧ entered σ r.2.
Proof.
  induction fuel as [|fuel IH]; intros t σ Hc Ht Hn; [lia|]. simpl.
  unfold Task.has.
  destruct (bool_decide (t ∈ doneTasks σ)) eqn:Hd.
  { eexists. split; [done|]. by apply entered_refl. }
  destruct (bool_decide (t ∈ inprogressTasks σ)) eqn:Hi.
  { eexists. split; [done|]. by apply entered_refl. }
  apply bool_decide_eq_false in Hd, Hi.
  apply elem_of_dom in Ht as [T HT]. rewrite HT. simpl.
  set (T' := Task.add_target_deps _ T).
  set (σ2 := set_heap _ _).
  assert (Hdom : dom (heap σ2) = dom (heap σ)).
  { simpl. rewrite dom_insert_L. apply subseteq_union_1_L, singleton_subseteq_l.
    by apply elem_of_dom_2 in HT. }
  assert (Hc2 : closed σ2).
  { destruct Hc as [Hdeps Hreg]. split.
    - intros u U d Hu Hdu. rewrite Hdom. simpl in Hu.
      destruct (decide (u = t)) as [->|Hne].
      + rewrite lookup_insert_eq in Hu. injection Hu as <-.
        apply add_target_deps_sub in Hdu as [?|[p Hp]]; [by eapply Hdeps|by eapply Hreg].
      + rewrite lookup_insert_ne in Hu by done. by eapply Hdeps.
    - intros p u Hp. rewrite Hdom. by eapply Hreg. }
  assert (He2 : entered σ σ2).
  { split; [done|]. split; [done|]. split; [done|]. split; [done|]. simpl. set_solver. }
  assert (Hlt : size (unmarked σ2) < size (unmarked σ)).
  { apply subset_size. unfold unmarked. rewrite Hdom. simpl.
    apply elem_of_dom_2 in HT. clear -HT Hd Hi.
    split; [set_solver|]. intros Hsub.
    assert (Hx : t ∈ dom (heap σ) ∖ (doneTasks σ ∪ inprogressTasks σ)) by set_solver.
    apply Hsub in Hx. set_solver. }
  destruct (execDependencies_total _ fuel IH (task_deps T') [] σ2 Hc2) as (r & -> & He3).
  - intros d Hd'. destruct Hc2 as [Hdeps _]. apply (Hdeps t T'); [|done].
    simpl. by rewrite lookup_insert_eq.
  - lia.
  - simpl. eexists. split; [done|].
    apply (entered_trans _ σ2); [done|]. apply (entered_trans _ r.2); [done|].
    destruct He3 as (_ & _ & Hc3 & _ & _).
    split; [done|]. split; [done|]. split; [exact Hc3|]. by split.
Qed.

Lemma map_get_elem (k : string) (v : nat) (m : list (string * nat)) :
  map_get k m = Some v → ∃ kv, kv ∈ m ∧ kv.2 = v.
Proof.
  induction m as [|[k' v'] m IH]; simpl; [done|].
  destruct (decide (k = k')).
  - intros [= <-]. exists (k', v'). split; [apply list_elem_of_here|done].
  - intros Hg. destruct (IH Hg) as (kv & Hin & Hv).
    exists kv. split; [by apply list_elem_of_further|done].
Qed.

Lemma setup_closed (t : nat) (σ σ' : State) :
  Task.setup t σ = Some σ' → closed σ → closed σ'.
Proof.
  intros Hs [Hdeps Hreg]. destruct (setup_same _ _ _ Hs) as (Hdom & _).
  unfold Task.setup in Hs. destruct (heap σ !! t) as [T|] eqn:HT; [|done].
  simpl in Hs. injection Hs as <-. simpl in Hdom. split.
  - intros u U d Hu Hd. simpl. rewrite Hdom. simpl in Hu.
    destruct (decide (u = t)) as [->|Hne].
    + rewrite lookup_insert_eq in Hu. injection Hu as <-. by eapply Hdeps.
    + rewrite lookup_insert_ne in Hu by done. by eapply Hdeps.
  - intros p u. simpl. rewrite Hdom. generalize (targets T) as tfs.
    intros tfs. revert Hreg. generalize (targetRegister σ) as reg.
    intros reg Hreg. revert reg Hreg.
    induction tfs as [|tf tfs IH]; intros reg Hreg; simpl; [apply Hreg|].
    apply IH. intros q w. destruct (decide (path tf = q)) as [->|Hne].
    + rewrite lookup_insert_eq. intros [= <-]. by apply elem_of_dom_2 in HT.
    + rewrite lookup_insert_ne by done. apply Hreg.
Qed.

Lemma setup_all_closed (reg : list (string * nat)) (σ σ' : State) :
  setup_all reg σ = Some σ' → closed σ → closed σ'.
Proof.
  revert σ. induction reg as [|kv reg IH]; intros σ Hs Hc; simpl in Hs.
  - by injection Hs as <-.
  - destruct (Task.setup kv.2 σ) as [σ1|] eqn:H1; [|done]. simpl in Hs.
    apply (IH σ1); [done|]. by eapply setup_closed.
Qed.

(** X15. The entry point reaches its first suspension, whatever the
    name and whatever the dependencies: the calls of [Task.exec] that it
    makes, one inside the loop of the other, come to an end also where
    tasks depend on each other, since each call that gets past the guards
    marks a task that was not marked. No reference is followed that leads
    to no task object. *)
Theorem exec_total (taskName : string) (stored : Manifest) (σ : State) :
  registry_ok σ → closed σ → ∃ σ0, exec taskName stored σ = Some σ0.
Proof.
  intros Hok Hc. unfold exec. destruct (decide (taskName = "list")); [by eexists|].
  destruct (setup_all_total (taskRegister σ) (log [EvLoad] (set_manifest (λ _, stored) σ)))
    as (σ2 & Hall & Hdom & Hr & _); [done|].
  simpl in *. rewrite Hall. simpl.
  apply setup_all_closed in Hall; [|done].
  destruct (map_get taskName (taskRegister σ2)) as [t|] eqn:Hg; [|by eexists].
  apply map_get_elem in Hg as (kv & Hin & <-). rewrite Hr in Hin.
  unfold registry_ok in Hok. rewrite Forall_forall in Hok. specialize (Hok kv Hin).
  destruct (exec_enter_total (S (size (heap σ2))) kv.2 σ2 Hall) as (r & H3 & _).
  - rewrite Hdom. by apply elem_of_dom.
  - rewrite <- size_dom. unfold unmarked.
    pose proof (subseteq_size (dom (heap σ2) ∖ (doneTasks σ2 ∪ inprogressTasks σ2))
                  (dom (heap σ2))) as Hsz.
    assert (size (dom (heap σ2) ∖ (doneTasks σ2 ∪ inprogressTasks σ2))
            ≤ size (dom (heap σ2))) by (apply Hsz; set_solver).
    lia.
  - unfold Task.exec. rewrite H3. by eexists.
Qed.

(** ** Processes built by [task] *)

Lemma elem_of_set_of_acc (d : nat) (l acc : list nat) :
  d ∈ foldl (λ s x, set_add x s) acc l ↔ d ∈ acc ∨ d ∈ l.
Proof.
  revert acc. induction l as [|x l IH]; intros acc; simpl.
  - split; [by left|]. intros [?|Hn]; [done|]. by apply elem_of_nil in Hn.
  - rewrite IH, elem_of_set_add, elem_of_cons. tauto.
Qed.

Lemma map_set_Forall (P : string * nat → Prop) (k : string) (v : nat)
    (m : list (string * nat)) :
  Forall P m → P (k, v) → Forall P (map_set k v m).
Proof.
  intros Hm Hkv. induction Hm as [|[k' v'] m Hx Hm IH]; simpl.
  - by repeat constructor.
  - destruct (decide (k = k')); by constructor.
Qed.

Lemma init_ok (fs : FS) :
  fresh_process (init fs) ∧ registry_ok (init fs) ∧ closed (init fs).
Proof.
  split; [done|]. split; [constructor|]. split.
  - intros t T d Ht. simpl in Ht. by rewrite lookup_empty in Ht.
  - intros p t Hp. simpl in Hp. by rewrite lookup_empty in Hp.
Qed.

(** Declaring a task whose dependencies are task objects keeps the
    process well formed. *)
Lemma task_ok (taskParams : TaskParams) (σ : State) :
  registry_ok σ → closed σ →
  (∀ d, d ∈ getTaskDeps (p_task_deps taskParams) (p_deps taskParams) →
        d ∈ dom (heap σ)) →
  registry_ok (task taskParams σ).2 ∧ closed (task taskParams σ).2 ∧
  (fresh_process σ → fresh_process (task taskParams σ).2).
Proof.
  intros Hok [Hdeps Hreg] Hdecl. unfold task. simpl.
  set (id := fresh (dom (heap σ))). set (T := new_Task taskParams).
  split; [|split; [|done]].
  - unfold registry_ok. simpl. apply map_set_Forall.
    + eapply Forall_impl; [exact Hok|]. intros [k v] [U HU]. simpl in *.
      destruct (decide (id = v)) as [->|Hne].
      * rewrite lookup_insert_eq. eauto.
      * rewrite lookup_insert_ne by done. eauto.
    + simpl. rewrite lookup_insert_eq. eauto.
  - split; simpl.
    + intros u U d Hu Hd. rewrite dom_insert_L. apply elem_of_union_r.
      destruct (decide (id = u)) as [<-|Hne].
      * rewrite lookup_insert_eq in Hu. injection Hu as <-.
        apply Hdecl. unfold T, new_Task, set_of in Hd. simpl in Hd.
        apply elem_of_set_of_acc in Hd as [Hn|?]; [by apply elem_of_nil in Hn|done].
      * rewrite lookup_insert_ne in Hu by done. by eapply Hdeps.
    + intros p u Hp. rewrite dom_insert_L. apply elem_of_union_r. by eapply Hreg.
Qed.

(** * Further properties *)

(** ** Snapshots *)

Lemma getFileData_val (f : TrackedFile) (fs : FS) :
  (TrackedFile.getFileData f fs).1
  = mkData (TrackedFile.getHash f fs).1 (TrackedFile.getTimestamp f fs).1.
Proof.
  unfold TrackedFile.getFileData, mbind, IO_bind.
  destruct (TrackedFile.getHash f fs) as [h e1].
  by destruct (TrackedFile.getTimestamp f fs) as [ts e2].
Qed.

Lemma snapshot_fresh (f : TrackedFile) (fs : FS) :
  TrackedFile.isUpToDate f (Some (TrackedFile.getFileData f fs).1) fs
  = (true, [EvLstat (path f)]).
Proof. apply isUpToDate_fast. by rewrite getFileData_val. Qed.

(** X1. A snapshot taken by [getFileData] is up to date for the file
    system it was taken from, and checking it costs the [lstat] alone. *)
Theorem snapshot_round_trip (f : TrackedFile) (fs : FS) :
  TrackedFile.isUpToDate f (Some (TrackedFile.getFileData f fs).1) fs
  = (true, [EvLstat (path f)]).
Proof.
  apply isUpToDate_fast. rewrite getFileData_val. reflexivity.
Qed.

Lemma getFileDataOrCached_val (f : TrackedFile) (c : option TrackedFileData) (fs : FS) :
  (TrackedFile.getFileDataOrCached f c fs).1
  = if (TrackedFile.isUpToDate f c fs).1
    then (default (TrackedFile.getFileData f fs).1 c, true)
    else ((TrackedFile.getFileData f fs).1, false).
Proof.
  unfold TrackedFile.getFileDataOrCached. destruct c as [d|].
  - unfold mbind, IO_bind at 1.
    destruct (TrackedFile.isUpToDate f (Some d) fs) as [[] e1].
    + reflexivity.
    + unfold mbind, IO_bind. by destruct (TrackedFile.getFileData f fs).
  - unfold mbind, IO_bind. by destruct (TrackedFile.getFileData f fs).
Qed.

Lemma getFileDataOrCached_fresh (f : TrackedFile) (c : option TrackedFileData) (fs : FS) :
  (TrackedFile.isUpToDate f (Some (TrackedFile.getFileDataOrCached f c fs).1.1) fs).1 = true.
Proof.
  rewrite getFileDataOrCached_val.
  destruct (TrackedFile.isUpToDate f c fs).1 eqn:Hup.
  - destruct c as [d|]; [exact Hup|discriminate Hup].
  - exact (f_equal fst (snapshot_fresh f fs)).
Qed.

(** X2. [getFileDataOrCached] answers with the cached record and [true]
    exactly when [isUpToDate] holds of it, and with the current snapshot
    and [false] otherwise; either way the record it answers with is up to
    date for the file system. *)
Theorem getFileDataOrCached_spec (f : TrackedFile) (c : option TrackedFileData) (fs : FS) :
  let r := (TrackedFile.getFileDataOrCached f c fs).1 in
  r.2 = (TrackedFile.isUpToDate f c fs).1 ∧
  (r.2 = true → c = Some r.1) ∧
  (r.2 = false → r.1 = (TrackedFile.getFileData f fs).1) ∧
  (TrackedFile.isUpToDate f (Some r.1) fs).1 = true.
Proof.
  simpl. split; [|split; [|split]].
  - rewrite getFileDataOrCached_val. by destruct (TrackedFile.isUpToDate f c fs).1.
  - rewrite getFileDataOrCached_val.
    destruct (TrackedFile.isUpToDate f c fs).1 eqn:Hup; simpl; [|done].
    intros _. destruct c as [d|]; [done|]. discriminate Hup.
  - rewrite getFileDataOrCached_val.
    by destruct (TrackedFile.isUpToDate f c fs).1.
  - apply getFileDataOrCached_fresh.
Qed.

Lemma getFileDataOrCached_spec_witness :
  (TrackedFile.getFileDataOrCached Ex.src (Some (mkData "a" "t0")) Ex.fs1).1.2 = true ∧
  (TrackedFile.getFileDataOrCached Ex.src (Some (mkData "b" "t0")) Ex.fs1).1.1
  = (TrackedFile.getFileData Ex.src Ex.fs1).1.
Proof.
  split.
  - by vm_compute.
  - apply (getFileDataOrCached_spec Ex.src (Some (mkData "b" "t0")) Ex.fs1).
    by vm_compute.
Defined.

(** ** The check of the file dependencies *)

Lemma mapM_val {A B} (f : A → IO B) (l : list A) (fs : FS) :
  (mapM f l fs).1 = (λ a, (f a fs).1) <$> l.
Proof.
  induction l as [|a l IH]; [done|].
  simpl. unfold mbind, IO_bind at 1. destruct (f a fs) as [b e1].
  unfold mbind, IO_bind at 1. destruct (mapM f l fs) as [bs e2].
  simpl in *. by rewrite IH.
Qed.

Lemma foldl_zip_fmap {A B C} (f : C → A * B → C) (g : A → B) (l : list A) (c : C) :
  foldl f c (zip l (g <$> l)) = foldl (λ c a, f c (a, g a)) c l.
Proof. revert c. induction l as [|a l IH]; intros c; simpl; [done|apply IH]. Qed.

Lemma checkFileDeps_loop_val (fds : list TrackedFile) (tm : TaskManifest) (fs : FS) :
  (Task.checkFileDeps_loop fds tm fs).1
  = (forallb (λ fd, (TrackedFile.isUpToDate fd (getFileData_tm tm (path fd)) fs).1) fds,
     foldl (λ tm' fd, setFileData_tm tm' (path fd) (checked tm fs fd)) tm fds).
Proof.
  unfold Task.checkFileDeps_loop, mbind, IO_bind.
  pose proof (mapM_val
    (λ fd, TrackedFile.getFileDataOrCached fd (getFileData_tm tm (path fd))) fds fs) as Hv.
  destruct (mapM (M:=IO) _ fds fs) as [rs es]. simpl in *. subst rs. f_equal.
  - induction fds as [|fd fds IH]; [done|]. rewrite fmap_cons. cbn [forallb].
    rewrite IH. f_equal. rewrite getFileDataOrCached_val.
    by destruct (TrackedFile.isUpToDate fd (getFileData_tm tm (path fd)) fs).1.
  - by rewrite (foldl_zip_fmap
      (λ tm' (fr : TrackedFile * (TrackedFileData * bool)),
         setFileData_tm tm' (path fr.1) (fr.2).1)).
Qed.

Lemma foldl_set_other (h : TrackedFile → TrackedFileData) (fds : list TrackedFile)
    (tm : TaskManifest) (p : string) :
  p ∉ path <$> fds →
  foldl (λ tm' fd, setFileData_tm tm' (path fd) (h fd)) tm fds !! p = tm !! p.
Proof.
  revert tm. induction fds as [|fd fds IH]; intros tm Hp; simpl; [done|].
  rewrite fmap_cons, not_elem_of_cons in Hp. destruct Hp as [Hne Hp].
  rewrite IH by done. unfold setFileData_tm. by rewrite lookup_insert_ne.
Qed.

Lemma foldl_set_lookup (h : TrackedFile → TrackedFileData) (fds : list TrackedFile)
    (tm : TaskManifest) (fd : TrackedFile) :
  NoDup (path <$> fds) → fd ∈ fds →
  foldl (λ tm' fd, setFileData_tm tm' (path fd) (h fd)) tm fds !! path fd = Some (h fd).
Proof.
  revert tm. induction fds as [|fd' fds IH]; intros tm Hnd Hin; simpl.
  { by apply elem_of_nil in Hin. }
  rewrite fmap_cons in Hnd. apply NoDup_cons in Hnd as [Hnot Hnd].
  apply elem_of_cons in Hin as [->|Hin].
  - rewrite foldl_set_other by done. unfold setFileData_tm. by rewrite lookup_insert_eq.
  - by apply IH.
Qed.

Lemma foldl_set_id (h : TrackedFile → TrackedFileData) (fds : list TrackedFile)
    (tm : TaskManifest) :
  (∀ fd, fd ∈ fds → tm !! path fd = Some (h fd)) →
  foldl (λ tm' fd, setFileData_tm tm' (path fd) (h fd)) tm fds = tm.
Proof.
  induction fds as [|fd fds IH]; intros Hall; simpl; [done|].
  unfold setFileData_tm at 2. rewrite insert_id by (apply Hall, list_elem_of_here).
  apply IH. intros fd' Hin. by apply Hall, list_elem_of_further.
Qed.

Lemma checkFileDeps_val (T : Task) (m : Manifest) (fs : FS) (key : string) :
  taskManifest T = Some key → file_deps T ≠ [] →
  ∃ es, Task.checkFileDeps T m fs
        = Some (forallb (λ fd, (TrackedFile.isUpToDate fd (getFileData_tm (m !!! key) (path fd)) fs).1)
                  (file_deps T),
                <[key := foldl (λ tm' fd, setFileData_tm tm' (path fd) (checked (m !!! key) fs fd))
                           (m !!! key) (file_deps T)]> m,
                es).
Proof.
  intros Hk Hne. unfold Task.checkFileDeps. rewrite Hk.
  destruct (file_deps T) as [|fd fds] eqn:Hf; [done|].
  cbv beta iota delta [mbind option_bind].
  pose proof (checkFileDeps_loop_val (fd :: fds) (m !!! key) fs) as Hv.
  destruct (Task.checkFileDeps_loop (fd :: fds) (m !!! key) fs) as [[b tm'] es].
  simpl in Hv. injection Hv as -> ->. by eexists.
Qed.

(** X3. When the task has its cache record, [checkFileDeps] answers the
    conjunction of [isUpToDate] over the file dependencies, each against
    the record the cache held when the check began. *)
Theorem checkFileDeps_conjunction (T : Task) (m m' : Manifest) (fs : FS) (key : string)
    (b : bool) (es : list Event) :
  taskManifest T = Some key →
  Task.checkFileDeps T m fs = Some (b, m', es) →
  b = forallb (λ fd, (TrackedFile.isUpToDate fd ((m !!! key) !! path fd) fs).1)
        (file_deps T).
Proof.
  intros Hk Hc. destruct (file_deps T) as [|fd fds] eqn:Hf.
  - unfold Task.checkFileDeps in Hc. rewrite Hf in Hc. by injection Hc as <- _ _.
  - destruct (checkFileDeps_val T m fs key Hk) as (es' & Hv); [by rewrite Hf|].
    rewrite Hf in Hv. rewrite Hv in Hc. by injection Hc as <- _ _.
Qed.

(** X4. A check that has run leaves the cache such that the same check,
    on the same files, answers true and leaves the cache as it is. The
    file dependencies must name different paths. *)
Theorem checkFileDeps_idempotent (T : Task) (m m' : Manifest) (fs : FS) (key : string)
    (b : bool) (es : list Event) :
  taskManifest T = Some key →
  NoDup (path <$> file_deps T) →
  Task.checkFileDeps T m fs = Some (b, m', es) →
  ∃ es', Task.checkFileDeps T m' fs = Some (true, m', es').
Proof.
  intros Hk Hnd Hc. destruct (file_deps T) as [|fd0 fds0] eqn:Hf.
  { unfold Task.checkFileDeps in *. rewrite Hf in *. injection Hc as _ <- _. by eexists. }
  assert (Hne : file_deps T ≠ []) by (by rewrite Hf).
  rewrite <- Hf in Hnd.
  destruct (checkFileDeps_val T m fs key Hk Hne) as (es1 & Hv).
  rewrite Hv in Hc. injection Hc as _ <- _.
  destruct (checkFileDeps_val T
    (<[key := foldl (λ tm' fd, setFileData_tm tm' (path fd) (checked (m !!! key) fs fd))
                (m !!! key) (file_deps T)]> m) fs key Hk Hne) as (es2 & Hv2).
  exists es2. rewrite Hv2. clear Hv Hv2.
  set (tm := m !!! key). set (h := checked tm fs).
  set (tm1 := foldl _ tm (file_deps T)).
  assert (Htot : (<[key := tm1]> m : Manifest) !!! key = tm1).
  { unfold lookup_total, map_lookup_total. by rewrite lookup_insert_eq. }
  rewrite Htot.
  assert (Hrec : ∀ fd, fd ∈ file_deps T → tm1 !! path fd = Some (h fd)).
  { intros fd Hin. by apply foldl_set_lookup. }
  assert (Hfresh : ∀ fd, fd ∈ file_deps T →
            (TrackedFile.isUpToDate fd (getFileData_tm tm1 (path fd)) fs).1 = true).
  { intros fd Hin. unfold getFileData_tm. rewrite (Hrec fd Hin).
    apply getFileDataOrCached_fresh. }
  assert (E1 : forallb (λ fd, (TrackedFile.isUpToDate fd (getFileData_tm tm1 (path fd)) fs).1)
                 (file_deps T) = true).
  { apply forallb_forall. intros fd Hin. apply Hfresh. by apply list_elem_of_In. }
  assert (E2 : foldl (λ tm' fd, setFileData_tm tm' (path fd) (checked tm1 fs fd))
                 tm1 (file_deps T) = tm1).
  { apply (foldl_set_id (checked tm1 fs)). intros fd Hin.
    rewrite (Hrec fd Hin). f_equal. unfold h, checked.
    rewrite (getFileDataOrCached_val fd (getFileData_tm tm1 (path fd))), (Hfresh fd Hin).
    unfold getFileData_tm. by rewrite (Hrec fd Hin). }
  by rewrite E1, E2, insert_insert_eq.
Qed.

Lemma checkFileDeps_conjunction_witness :
  false = forallb
            (λ fd, (TrackedFile.isUpToDate fd ((ExCheck.stale !!! "compile") !! path fd) Ex.fs1).1)
            (file_deps ExCheck.obj).
Proof.
  eapply (checkFileDeps_conjunction ExCheck.obj ExCheck.stale _ Ex.fs1 "compile" false _).
  - reflexivity.
  - vm_compute. reflexivity.
Defined.

Lemma checkFileDeps_idempotent_witness :
  ∃ es', Task.checkFileDeps ExCheck.obj
           {[ "compile" := {[ "/src.txt" := mkData "a" "t1" ]} ]} Ex.fs1
         = Some (true, {[ "compile" := {[ "/src.txt" := mkData "a" "t1" ]} ]}, es').
Proof.
  eapply (checkFileDeps_idempotent ExCheck.obj ExCheck.stale _ Ex.fs1 "compile" false _).
  - reflexivity.
  - vm_compute. repeat constructor. apply not_elem_of_nil.
  - vm_compute. reflexivity.
Defined.

(** ** The continuation after the dependencies *)


Lemma actualUpToDate_raises (t : nat) (T : Task) (m : Manifest) (fs : FS) :
  Task.actualUpToDate t T m fs = None ↔ Task.checkFileDeps T m fs = None.
Proof.
  unfold Task.actualUpToDate.
  destruct (Task.checkFileDeps T m fs) as [[[b1 m1] es1]|]; [|done]. simpl.
  destruct (Task.and_then b1 (Task.targetsExist T) fs) as [b2 es2].
  by destruct (Task.and_then b2 (Task.call_uptodate t T) fs) as [b3 es3].
Qed.



(** X6. A task object with the default predicate calls its action
    whenever its checks run to their end, whatever its file dependencies
    and targets are: the predicate is the last conjunct and is false. *)
Theorem default_predicate_never_skips (a t : nat) (T : Task) (σ σ' : State) :
  heap σ !! t = Some T →
  uptodate T = runAlways →
  Task.exec_checks a t σ = Some σ' →
  calls σ' !! a = Some (mkCall t AwaitAction) ∧
  last (trace σ') = Some (EvActionCall t) ∧
  t ∉ doneTasks σ' ∖ doneTasks σ.
Proof.
  intros Ht Hu He.
  destruct (Task.checkFileDeps T (manifest σ) (fsys σ)) as [[[b1 m1] es1]|] eqn:Hc.
  - pose proof (actualUpToDate_eq t T _ _ _ _ _ Hc) as Hup.
    rewrite Hu in Hup. unfold runAlways in Hup. rewrite andb_false_r in Hup.
    destruct (exec_checks_calls_action a t T σ _ _ Ht Hup) as (σ2 & He2 & Hc2 & Hl2 & Hd2).
    rewrite He in He2. injection He2 as <-.
    split; [done|]. split; [done|]. rewrite Hd2. set_solver.
  - exfalso. apply (actualUpToDate_raises t) in Hc.
    unfold Task.exec_checks in He. rewrite Ht in He. simpl in He. by rewrite Hc in He.
Qed.

Lemma default_predicate_never_skips_witness :
  calls ExRun.s1 !! 0 = Some (mkCall 0 AwaitAction) ∧
  last (trace ExRun.s1) = Some (EvActionCall 0) ∧
  0 ∉ doneTasks ExRun.s1 ∖ doneTasks ExCompile.s0.
Proof.
  eapply (default_predicate_never_skips 0 0 _ ExCompile.s0 ExRun.s1).
  - vm_compute. reflexivity.
  - reflexivity.
  - vm_compute. reflexivity.
Defined.

(** X7. When the file dependencies are fresh, every target exists and
    the predicate answers true, the call marks the task done and returns
    in the same step: the action is not called, the files are as they
    were, and no recomputation is started. *)
Theorem up_to_date_task_is_skipped (a t : nat) (T : Task) (σ : State) (m' : Manifest)
    (es1 : list Event) :
  heap σ !! t = Some T →
  Task.checkFileDeps T (manifest σ) (fsys σ) = Some (true, m', es1) →
  (∀ tf, tf ∈ targets T → is_Some (fsys σ !! path tf)) →
  uptodate T (fsys σ) = true →
  ∃ σ', Task.exec_checks a t σ = Some σ' ∧
        calls σ' !! a = Some (mkCall t Returned) ∧
        t ∈ doneTasks σ' ∧ (t ∉ inprogressTasks σ') ∧
        action_calls t (trace σ') = action_calls t (trace σ) ∧
        fsys σ' = fsys σ ∧ detached σ' = detached σ.
Proof.
  intros Ht Hc Htg Hu.
  pose proof (actualUpToDate_eq t T _ _ _ _ _ Hc) as Hup.
  pose proof (proj2 (targetsExist_true T (fsys σ)) Htg) as Hte.
  rewrite Hte, Hu in Hup. simpl in Hup.
  assert (∃ es, Task.actualUpToDate t T (manifest σ) (fsys σ) = Some (true, m', es))
    as [es Hup'] by eauto.
  clear Hup. pose proof Hup' as Hpr. apply actualUpToDate_probes in Hpr.
  unfold Task.exec_checks. rewrite Ht. simpl. rewrite Hup'. simpl.
  eexists. split; [done|]. simpl. rewrite lookup_insert_eq.
  split; [done|]. split; [set_solver|]. split; [set_solver|].
  split; [|done]. count_calls. lia.
Qed.

Lemma up_to_date_task_is_skipped_witness :
  ∃ σ', Task.exec_checks 0 0 ExSkip.s0 = Some σ' ∧
        calls σ' !! 0 = Some (mkCall 0 Returned) ∧
        0 ∈ doneTasks σ' ∧ (0 ∉ inprogressTasks σ') ∧
        action_calls 0 (trace σ') = action_calls 0 (trace ExSkip.s0) ∧
        fsys σ' = fsys ExSkip.s0 ∧ detached σ' = detached ExSkip.s0.
Proof.
  eapply (up_to_date_task_is_skipped 0 0 _ ExSkip.s0).
  - vm_compute. reflexivity.
  - vm_compute. reflexivity.
  - intros tf Htf. vm_compute in Htf. apply list_elem_of_singleton in Htf as ->.
    vm_compute. eauto.
  - reflexivity.
Defined.

(** X8. A check of the file dependencies that answers true leaves the
    manifest as it was: a fresh file gets its cached record written
    back. *)
Theorem fresh_check_keeps_manifest (T : Task) (m m' : Manifest) (fs : FS) (key : string)
    (es : list Event) :
  taskManifest T = Some key →
  is_Some (m !! key) →
  Task.checkFileDeps T m fs = Some (true, m', es) →
  m' = m.
Proof.
  intros Hk [tm Htm] Hc. destruct (file_deps T) as [|fd0 fds0] eqn:Hf.
  { unfold Task.checkFileDeps in Hc. rewrite Hf in Hc. by injection Hc as <-. }
  destruct (checkFileDeps_val T m fs key Hk) as (es' & Hv); [by rewrite Hf|].
  rewrite Hv in Hc. injection Hc as Hall <- _.
  assert (Htot : m !!! key = tm).
  { unfold lookup_total, map_lookup_total. by rewrite Htm. }
  rewrite Htot in *. rewrite forallb_forall in Hall.
  rewrite (foldl_set_id (checked tm fs)); [by apply insert_id|].
  intros fd Hin. apply list_elem_of_In in Hin. specialize (Hall fd Hin).
  unfold checked. rewrite getFileDataOrCached_val, Hall. unfold getFileData_tm in *.
  destruct (tm !! path fd) as [d|]; [done|discriminate Hall].
Qed.

Lemma fresh_check_keeps_manifest_witness :
  ({[ "compile" := {[ "/src.txt" := mkData "a" "t1" ]} ]} : Manifest)
  = {[ "compile" := {[ "/src.txt" := mkData "a" "t1" ]} ]}.
Proof.
  eapply (fresh_check_keeps_manifest ExCheck.obj _ _ Ex.fs1 "compile" _).
  - reflexivity.
  - vm_compute. eauto.
  - vm_compute. reflexivity.
Defined.



(** ** Construction and registration *)

Lemma set_add_NoDup (x : nat) (s : list nat) : NoDup s → NoDup (set_add x s).
Proof.
  intros Hs. unfold set_add. destruct (decide (x ∈ s)) as [|Hnin]; [done|].
  apply NoDup_app. split; [done|]. split.
  - intros y Hy Hx. apply list_elem_of_singleton in Hx as ->. done.
  - apply NoDup_singleton.
Qed.

Lemma set_of_acc_NoDup (l acc : list nat) :
  NoDup acc → NoDup (foldl (λ s x, set_add x s) acc l).
Proof.
  revert acc. induction l as [|x l IH]; intros acc Hacc; simpl; [done|].
  by apply IH, set_add_NoDup.
Qed.

Lemma fset_add_NoDup (f : TrackedFile) (s : list TrackedFile) :
  NoDup (fid <$> s) → NoDup (fid <$> fset_add f s).
Proof.
  intros Hs. unfold fset_add. destruct (decide (fid f ∈ fid <$> s)) as [|Hnin]; [done|].
  rewrite fmap_app. apply NoDup_app. split; [done|]. split.
  - intros y Hy Hx. apply list_elem_of_singleton in Hx as ->. done.
  - apply NoDup_singleton.
Qed.

Lemma fset_of_acc_NoDup (l acc : list TrackedFile) :
  NoDup (fid <$> acc) → NoDup (fid <$> foldl (λ s f, fset_add f s) acc l).
Proof.
  revert acc. induction l as [|x l IH]; intros acc Hacc; simpl; [done|].
  by apply IH, fset_add_NoDup.
Qed.

Lemma fset_of_acc_fids (l acc : list TrackedFile) (i : nat) :
  i ∈ fid <$> foldl (λ s f, fset_add f s) acc l ↔ i ∈ fid <$> acc ∨ i ∈ fid <$> l.
Proof.
  revert acc. induction l as [|x l IH]; intros acc; cbn [foldl].
  - rewrite fmap_nil. split; [by left|]. intros [?|Hn]; [done|]. by apply elem_of_nil in Hn.
  - rewrite IH, fmap_cons, elem_of_cons. unfold fset_add.
    destruct (decide (fid x ∈ fid <$> acc)) as [Hin|Hnin].
    + split; [tauto|]. intros [?|[->|?]]; tauto.
    + rewrite fmap_app, elem_of_app, fmap_cons, fmap_nil, list_elem_of_singleton. tauto.
Qed.

Lemma fset_of_acc_sub (l acc : list TrackedFile) (f : TrackedFile) :
  f ∈ foldl (λ s f, fset_add f s) acc l → f ∈ acc ∨ f ∈ l.
Proof.
  revert acc. induction l as [|x l IH]; intros acc Hf; simpl in Hf; [by left|].
  apply IH in Hf as [Hf|?]; [|right; by apply list_elem_of_further].
  unfold fset_add in Hf. destruct (decide (fid x ∈ fid <$> acc)); [by left|].
  apply elem_of_app in Hf as [?|Hf]; [by left|].
  apply list_elem_of_singleton in Hf as ->. right. apply list_elem_of_here.
Qed.

(** X10. The constructor splits [deps] by kind and builds sets: the task
    dependencies are the listed tasks and the tasks in [deps], each once;
    the file dependencies are file objects out of [file_deps] and [deps],
    one for each object listed. *)
Theorem new_Task_dependencies (taskParams : TaskParams) :
  let T := new_Task taskParams in
  NoDup (task_deps T) ∧
  (∀ d, d ∈ task_deps T ↔
        d ∈ default [] (p_task_deps taskParams) ∨
        inl d ∈ default [] (p_deps taskParams)) ∧
  NoDup (fid <$> file_deps T) ∧
  (∀ f, f ∈ file_deps T →
        f ∈ default [] (p_file_deps taskParams) ∨
        inr f ∈ default [] (p_deps taskParams)) ∧
  (∀ f, f ∈ default [] (p_file_deps taskParams) ∨ inr f ∈ default [] (p_deps taskParams) →
        fid f ∈ fid <$> file_deps T).
Proof.
  simpl. unfold set_of, fset_of, getTaskDeps, getTrackedFiles.
  split; [apply set_of_acc_NoDup, NoDup_nil_2|]. split.
  { intros d. rewrite elem_of_set_of_acc, elem_of_app, list_elem_of_omap. split.
    - intros [Hn|[?|([t|f] & Hin & Heq)]]; [by apply elem_of_nil in Hn|by left| |done].
      injection Heq as ->. by right.
    - intros [?|?]; right; [by left|]. right. by exists (inl d). }
  split; [apply fset_of_acc_NoDup; rewrite fmap_nil; apply NoDup_nil_2|]. split.
  - intros f Hf. apply fset_of_acc_sub in Hf as [Hn|Hf]; [by apply elem_of_nil in Hn|].
    apply elem_of_app in Hf as [?|Hf]; [by left|].
    apply list_elem_of_omap in Hf as ([t|g] & Hin & Heq); [done|].
    injection Heq as ->. by right.
  - intros f Hf. apply fset_of_acc_fids. right. apply list_elem_of_fmap.
    exists f. split; [done|]. apply elem_of_app.
    destruct Hf as [?|?]; [by left|]. right. apply list_elem_of_omap. by exists (inr f).
Qed.

Lemma map_get_set_eq (k : string) (v : nat) (m : list (string * nat)) :
  map_get k (map_set k v m) = Some v.
Proof.
  induction m as [|[k' v'] m IH]; simpl.
  - by rewrite decide_True.
  - destruct (decide (k = k')) as [->|Hne]; simpl.
    + by rewrite decide_True.
    + by rewrite decide_False.
Qed.

Lemma map_get_set_ne (k k' : string) (v : nat) (m : list (string * nat)) :
  k ≠ k' → map_get k' (map_set k v m) = map_get k' m.
Proof.
  intros Hne. induction m as [|[k0 v0] m IH]; simpl.
  - by rewrite decide_False.
  - destruct (decide (k = k0)) as [->|Hne0]; simpl.
    + by rewrite !decide_False.
    + destruct (decide (k' = k0)); [done|apply IH].
Qed.

(** X11. [task] makes a new object and enters it under its name: the
    reference is new, the name leads to it from then on (a task declared
    earlier under this name is no longer found), and the other names and
    objects are as they were. *)
Theorem task_registers (taskParams : TaskParams) (σ : State) :
  let id := (task taskParams σ).1 in
  let σ' := (task taskParams σ).2 in
  (id ∉ dom (heap σ)) ∧
  heap σ' !! id = Some (new_Task taskParams) ∧
  map_get (p_name taskParams) (taskRegister σ') = Some id ∧
  (∀ k, k ≠ p_name taskParams →
        map_get k (taskRegister σ') = map_get k (taskRegister σ)) ∧
  (∀ u, u ≠ id → heap σ' !! u = heap σ !! u).
Proof.
  simpl. split; [apply is_fresh|]. split; [by rewrite lookup_insert_eq|].
  split; [apply map_get_set_eq|]. split.
  - intros k Hk. by apply map_get_set_ne.
  - intros u Hu. by rewrite lookup_insert_ne.
Qed.

(** ** [setup] *)

Lemma getOrInsert_keeps (m : Manifest) (n k : string) (tm fresh : TaskManifest) :
  m !! n = Some tm → getOrInsert m k fresh !! n = Some tm.
Proof.
  intros Hn. unfold getOrInsert. destruct (m !! k) eqn:Hk; [done|].
  rewrite lookup_insert_ne; [done|]. intros ->. congruence.
Qed.

Lemma getOrInsert_has (m : Manifest) (k : string) (fresh : TaskManifest) :
  is_Some (getOrInsert m k fresh !! k).
Proof.
  unfold getOrInsert. destruct (m !! k) eqn:Hk; [by rewrite Hk|].
  rewrite lookup_insert_eq. eauto.
Qed.

Lemma setup_manifest (t : nat) (σ σ' : State) :
  Task.setup t σ = Some σ' →
  (∀ n tm, manifest σ !! n = Some tm → manifest σ' !! n = Some tm) ∧
  handle_set σ' t ∧
  (∀ u, handle_set σ u → handle_set σ' u) ∧
  (∀ u U', heap σ' !! u = Some U' →
           ∃ U, heap σ !! u = Some U ∧ targets U' = targets U ∧ name U' = name U).
Proof.
  unfold Task.setup. destruct (heap σ !! t) as [T|] eqn:HT; [|done]. simpl.
  intros [= <-]. simpl. split; [|split; [|split]].
  - intros n tm Hn. by apply getOrInsert_keeps.
  - exists (with_taskManifest (Some (name T)) T). simpl. rewrite lookup_insert_eq.
    split; [done|]. split; [done|]. apply getOrInsert_has.
  - intros u (U & HU & Hh & [tm Hm]). unfold handle_set. simpl.
    destruct (decide (t = u)) as [->|Hne].
    + rewrite lookup_insert_eq. eexists. split; [done|]. simpl.
      split; [done|]. apply getOrInsert_has.
    + rewrite lookup_insert_ne by done. exists U. split; [done|]. split; [done|].
      exists tm. by apply getOrInsert_keeps.
  - intros u U' HU'. destruct (decide (t = u)) as [->|Hne].
    + rewrite lookup_insert_eq in HU'. injection HU' as <-. by exists T.
    + rewrite lookup_insert_ne in HU' by done. by exists U'.
Qed.

Lemma setup_all_handle (reg : list (string * nat)) (σ σ' : State) (u : nat) :
  setup_all reg σ = Some σ' → handle_set σ u → handle_set σ' u.
Proof.
  revert σ. induction reg as [|kv reg IH]; intros σ Hs Hu; simpl in Hs.
  - by injection Hs as <-.
  - destruct (Task.setup kv.2 σ) as [σ1|] eqn:H1; [|done]. simpl in Hs.
    destruct (setup_manifest _ _ _ H1) as (_ & _ & Hk & _).
    apply (IH σ1); [done|]. by apply Hk.
Qed.

(** X12. Setting the registered tasks up keeps every record that was
    loaded from disk, and leaves every registered task with its handle
    and a record under its name. *)
Theorem setup_all_keeps_cache (reg : list (string * nat)) (σ σ' : State) :
  setup_all reg σ = Some σ' →
  (∀ n tm, manifest σ !! n = Some tm → manifest σ' !! n = Some tm) ∧
  (∀ kv, kv ∈ reg → handle_set σ' kv.2).
Proof.
  revert σ. induction reg as [|kv reg IH]; intros σ Hs; simpl in Hs.
  - injection Hs as <-. split; [done|]. intros kv Hin. by apply elem_of_nil in Hin.
  - destruct (Task.setup kv.2 σ) as [σ1|] eqn:H1; [|done]. simpl in Hs.
    destruct (setup_manifest _ _ _ H1) as (Hm1 & Hh1 & _).
    destruct (IH _ Hs) as [Hm Hh]. split; [by eauto|].
    intros kv' Hin. apply elem_of_cons in Hin as [->|Hin]; [|by apply Hh].
    by apply (setup_all_handle reg σ1).
Qed.

Lemma setup_all_keeps_cache_witness :
  (∀ n tm, manifest ExSetup.loaded !! n = Some tm → manifest ExSetup.ready !! n = Some tm) ∧
  (∀ kv, kv ∈ taskRegister ExSetup.loaded → handle_set ExSetup.ready kv.2).
Proof.
  apply (setup_all_keeps_cache (taskRegister ExSetup.loaded) ExSetup.loaded ExSetup.ready).
  vm_compute. reflexivity.
Defined.

Lemma foldl_target_other (t : nat) (tfs : list TrackedFile) (r : gmap string nat)
    (p : string) :
  p ∉ path <$> tfs → foldl (λ r tf, <[path tf := t]> r) r tfs !! p = r !! p.
Proof.
  revert r. induction tfs as [|tf tfs IH]; intros r Hp; simpl; [done|].
  rewrite fmap_cons, not_elem_of_cons in Hp. destruct Hp as [Hne Hp].
  rewrite IH by done. by rewrite lookup_insert_ne.
Qed.

Lemma foldl_target_lookup (t : nat) (tfs : list TrackedFile) (r : gmap string nat)
    (p : string) :
  p ∈ path <$> tfs → foldl (λ r tf, <[path tf := t]> r) r tfs !! p = Some t.
Proof.
  revert r. induction tfs as [|tf tfs IH]; intros r Hin; simpl.
  { by apply elem_of_nil in Hin. }
  destruct (decide (p ∈ path <$> tfs)) as [Hlater|Hnot]; [by apply IH|].
  rewrite foldl_target_other by done.
  rewrite fmap_cons in Hin. apply elem_of_cons in Hin as [->|?]; [|done].
  by rewrite lookup_insert_eq.
Qed.

Lemma setup_all_app (l1 l2 : list (string * nat)) (σ : State) :
  setup_all (l1 ++ l2) σ = setup_all l1 σ ≫= setup_all l2.
Proof.
  revert σ. induction l1 as [|kv l1 IH]; intros σ; simpl; [done|].
  destruct (Task.setup kv.2 σ) as [σ1|]; simpl; [apply IH|done].
Qed.

Lemma setup_all_targets (reg : list (string * nat)) (σ σ' : State) (u : nat) (U' : Task) :
  setup_all reg σ = Some σ' → heap σ' !! u = Some U' →
  ∃ U, heap σ !! u = Some U ∧ targets U' = targets U ∧ name U' = name U.
Proof.
  revert σ. induction reg as [|kv reg IH]; intros σ Hs HU'; simpl in Hs.
  - injection Hs as <-. by exists U'.
  - destruct (Task.setup kv.2 σ) as [σ1|] eqn:H1; [|done]. simpl in Hs.
    destruct (IH _ Hs HU') as (U1 & HU1 & Ht1 & Hn1).
    destruct (setup_manifest _ _ _ H1) as (_ & _ & _ & Hobj).
    destruct (Hobj _ _ HU1) as (U & HU & Ht & Hn).
    exists U. split; [done|]. split; congruence.
Qed.

Lemma setup_all_no_target (reg : list (string * nat)) (σ σ' : State) (p : string) :
  setup_all reg σ = Some σ' →
  (∀ kv U, kv ∈ reg → heap σ !! kv.2 = Some U → p ∉ path <$> targets U) →
  targetRegister σ' !! p = targetRegister σ !! p.
Proof.
  revert σ. induction reg as [|kv reg IH]; intros σ Hs Hno; simpl in Hs.
  - by injection Hs as <-.
  - destruct (Task.setup kv.2 σ) as [σ1|] eqn:H1; [|done]. simpl in Hs.
    rewrite (IH σ1 Hs).
    + unfold Task.setup in H1. destruct (heap σ !! kv.2) as [T|] eqn:HT; [|done].
      simpl in H1. injection H1 as <-. simpl. apply foldl_target_other.
      apply (Hno kv T); [apply list_elem_of_here|done].
    + intros kv' U1 Hin HU1.
      destruct (setup_manifest _ _ _ H1) as (_ & _ & _ & Hobj).
      destruct (Hobj _ _ HU1) as (U & HU & -> & _).
      apply (Hno kv' U); [by apply list_elem_of_further|done].
Qed.

(** X13. After the setups the target register leads from a target path
    to the last task in the register that declares it: a later task with
    the same target takes the path over, an earlier one loses it. *)
Theorem target_register_last_wins (pre post : list (string * nat)) (k : string) (t : nat)
    (T : Task) (tf : TrackedFile) (σ σ' : State) :
  setup_all (pre ++ (k, t) :: post) σ = Some σ' →
  heap σ !! t = Some T →
  tf ∈ targets T →
  (∀ kv U, kv ∈ post → heap σ !! kv.2 = Some U → path tf ∉ path <$> targets U) →
  targetRegister σ' !! path tf = Some t.
Proof.
  intros Hs HT Hin Hpost. rewrite setup_all_app in Hs.
  destruct (setup_all pre σ) as [σa|] eqn:Ha; [|done]. simpl in Hs.
  destruct (Task.setup t σa) as [σb|] eqn:Hb; [|done]. simpl in Hs.
  assert (Hreg : targetRegister σb !! path tf = Some t).
  { unfold Task.setup in Hb. destruct (heap σa !! t) as [Ta|] eqn:HTa; [|done].
    simpl in Hb. injection Hb as <-. simpl. apply foldl_target_lookup.
    destruct (setup_all_targets _ _ _ _ _ Ha HTa) as (T0 & HT0 & -> & _).
    simplify_eq. apply list_elem_of_fmap. by exists tf. }
  rewrite <- Hreg. apply (setup_all_no_target post σb σ' _ Hs).
  intros kv Ub Hkv HUb.
  destruct (setup_manifest _ _ _ Hb) as (_ & _ & _ & Hobj).
  destruct (Hobj _ _ HUb) as (Ua & HUa & -> & _).
  destruct (setup_all_targets _ _ _ _ _ Ha HUa) as (U0 & HU0 & -> & _).
  by apply (Hpost kv U0).
Qed.

Lemma target_register_last_wins_witness :
  targetRegister ExSetup.ready !! path ExCompile.out = Some 1.
Proof.
  eapply (target_register_last_wins [("compile", 0)] [] "again" 1 _ ExCompile.out
            ExSetup.loaded ExSetup.ready).
  - vm_compute. reflexivity.
  - vm_compute. reflexivity.
  - vm_compute. apply list_elem_of_here.
  - intros kv U Hkv. by apply elem_of_nil in Hkv.
Defined.


(** ** The calls of an invocation *)

Lemma exec_total_witness :
  ∃ σ0, exec "b" ∅ ExCycle.sr = Some σ0.
Proof.
  apply (exec_total "b" ∅ ExCycle.sr).
  - repeat constructor; vm_compute; eauto.
  - destruct (init_ok ∅) as (_ & Hr & Hc).
    destruct (task_ok ExCycle.a (init ∅) Hr Hc) as (Hr1 & Hc1 & _).
    { intros d Hd. vm_compute in Hd. by apply elem_of_nil in Hd. }
    destruct (task_ok ExCycle.b (task ExCycle.a (init ∅)).2 Hr1 Hc1) as (_ & Hc2 & _).
    { intros d Hd. vm_compute in Hd. apply list_elem_of_singleton in Hd as ->.
      apply (bool_decide_unpack _). by vm_compute. }
    exact Hc2.
Defined.

Lemma step_same_calls (c : Choice) (σ σ' : State) :
  step c σ = Some σ' →
  heap σ' = heap σ ∧ taskRegister σ' = taskRegister σ ∧
  targetRegister σ' = targetRegister σ ∧ promises σ' = promises σ ∧
  ∀ a, callee <$> calls σ' !! a = callee <$> calls σ !! a.
Proof.
  intros Hs.
  assert (Hins : ∀ a t ph ph', calls σ !! a = Some (mkCall t ph) →
            ∀ b, callee <$> <[a := mkCall t ph']> (calls σ) !! b = callee <$> calls σ !! b).
  { intros a t ph ph' Ha b. destruct (decide (b = a)) as [->|Hne].
    - by rewrite lookup_insert_eq, Ha.
    - by rewrite lookup_insert_ne. }
  destruct c as [a|i|]; simpl in Hs.
  - destruct (calls σ !! a) as [[t ph]|] eqn:Hph; [|done]. simpl in Hs.
    destruct ph; try done.
    + destruct (forallb _ _); [|done]. unfold Task.exec_checks in Hs.
      destruct (heap σ !! t) as [T|]; [|done]. simpl in Hs.
      destruct (Task.actualUpToDate _ _ _ _) as [[[b m'] es]|]; [|done]. simpl in Hs.
      destruct b; injection Hs as <-; repeat split; simpl; by eapply Hins.
    + unfold Task.exec_after_action in Hs.
      destruct (heap σ !! t) as [T|]; [|done]. simpl in Hs. injection Hs as <-.
      repeat split; simpl. by eapply Hins.
  - unfold Task.settle in Hs.
    destruct (detached σ !! i) as [[t fd]|]; [|done]. simpl in Hs.
    destruct (heap σ !! t) as [T|]; [|done]. simpl in Hs.
    destruct (TrackedFile.getFileData fd (fsys σ)) as [x es].
    by injection Hs as <-.
  - destruct (main σ) as [| |p|]; try done.
    destruct (resolved σ p); [|done]. by injection Hs as <-.
Qed.

(** X14. Once the entry point is suspended, no call of [Task.exec] is
    made any more: every step keeps the calls there are, each on its task
    object, the task objects with their dependency sets, both registers,
    and the promises each call awaits. All the calls of an invocation are
    made on the way to the first suspension. *)
Theorem no_call_after_first_suspension (σ σ' : State) :
  reachable σ σ' →
  (∀ a, callee <$> calls σ' !! a = callee <$> calls σ !! a) ∧
  heap σ' = heap σ ∧
  taskRegister σ' = taskRegister σ ∧
  targetRegister σ' = targetRegister σ ∧
  promises σ' = promises σ.
Proof.
  intros Hr. induction Hr as [σ|σ1 σ2 σ3 [c Hs] _ IH]; [done|].
  destruct (step_same_calls c _ _ Hs) as (Hh & Ht & Hg & Hp & Hc).
  destruct IH as (Hc' & Hh' & Ht' & Hg' & Hp').
  split; [intros a; by rewrite Hc', Hc|]. repeat split; congruence.
Qed.

Lemma no_call_after_first_suspension_witness :
  (∀ a, callee <$> calls ExDiamond.s3 !! a = callee <$> calls ExDiamond.s0 !! a) ∧
  heap ExDiamond.s3 = heap ExDiamond.s0 ∧
  taskRegister ExDiamond.s3 = taskRegister ExDiamond.s0 ∧
  targetRegister ExDiamond.s3 = targetRegister ExDiamond.s0 ∧
  promises ExDiamond.s3 = promises ExDiamond.s0.
Proof.
  apply (no_call_after_first_suspension ExDiamond.s0 ExDiamond.s3).
  apply (run_reachable [Resume 2; Resume 3; Resume 2]). vm_compute. reflexivity.
Defined.

(** X16. Given [list], the entry point prints one row for each entry of
    the task register and returns: the manifest is not loaded, no task is
    set up or run, nothing is saved; and in a process where nothing is
    pending, the event loop has nothing left to run. *)
Theorem list_prints_table (stored : Manifest) (σ : State) :
  calls σ = ∅ → detached σ = [] →
  ∃ σ' rows,
    exec "list" stored σ = Some σ' ∧
    trace σ' = trace σ ++ [EvTable rows] ∧
    length rows = length (taskRegister σ) ∧
    manifest σ' = manifest σ ∧ heap σ' = heap σ ∧
    targetRegister σ' = targetRegister σ ∧
    (∀ c, step c σ' = None).
Proof.
  intros Hc Hd. unfold exec. rewrite decide_True by done.
  eexists _, _. split; [done|]. simpl. split; [done|].
  split; [by rewrite length_fmap|]. repeat split.
  intros [a|i|]; simpl.
  - by rewrite Hc, lookup_empty.
  - unfold Task.settle. simpl. by rewrite Hd.
  - done.
Qed.

Lemma list_prints_table_witness :
  ∃ σ' rows,
    exec "list" ∅ ExDiamond.sr = Some σ' ∧
    trace σ' = trace ExDiamond.sr ++ [EvTable rows] ∧
    length rows = length (taskRegister ExDiamond.sr) ∧
    manifest σ' = manifest ExDiamond.sr ∧ heap σ' = heap ExDiamond.sr ∧
    targetRegister σ' = targetRegister ExDiamond.sr ∧
    (∀ c, step c σ' = None).
Proof. apply (list_prints_table ∅ ExDiamond.sr); reflexivity. Defined.
